(** * Knuth-Plass line breaking: a shallow embedding of [knuth_plass.cpp]

    The development follows the C++ source function by function.

    Numbers.  The source computes with [float], [double] and [long double].
    They are modelled by the exact rationals [Q]; the values on which the
    evaluations below turn (widths, ratios 0 and -1, demerits 1, 101 and
    12501) are small integers on which the floating-point operations of the
    source are exact.  [SuperULong] positions and line
    numbers are indices into the paragraph and are modelled by [nat] (they
    never exceed the number of items); the one place where unsigned
    wrap-around is observable, the subtraction [br->line - A->line] of the
    looseness loop, is written out modulo [2^64].

    Objects.  A [std::shared_ptr<Break>] is compared by address in the
    removal loop, so every [Break] carries the address [addr] it was
    allocated at; [std::make_shared] takes the next free address. *)

From Stdlib Require Import List ZArith QArith Qabs Qpower Bool Lia Lqa PeanoNat
  Ascii.
Import ListNotations.

Local Open Scope Q_scope.

(** ** Constants and comparisons *)

(** [const unsigned int INF = 10000;] *)
Definition INF : Z := 10000.

(** [INF] converted to a floating-point operand. *)
Definition INFq : Q := inject_Z INF.

(** [x < y] on reals, as a boolean. *)
Definition Qltb (x y : Q) : bool := negb (Qle_bool y x).

(** ** The item model *)

Inductive SpecType : Type := BOX | GLUE | PENALTY.

Definition SpecType_eqb (a b : SpecType) : bool :=
  match a, b with
  | BOX, BOX | GLUE, GLUE | PENALTY, PENALTY => true
  | _, _ => false
  end.

Section Paragraph.

(** The template parameter of [KnuthPlassParagraph]. *)
Variable ValueType : Type.

(** The seven specification vectors of the class. *)
Record KnuthPlassParagraph : Type := mkParagraph {
  type    : list SpecType;
  width   : list Q;
  stretch : list Q;
  shrink  : list Q;
  penalty : list Q;
  flagged : list bool;
  value   : list ValueType
}.

(** A default-constructed paragraph: all vectors empty. *)
Definition empty_paragraph : KnuthPlassParagraph :=
  mkParagraph [] [] [] [] [] [] [].

(** [v.push_back(x)] *)
Definition push_back {A : Type} (v : list A) (x : A) : list A := v ++ [x].

(** [void add_glue(float shrink, float width, float stretch, ValueType value)] *)
Definition add_glue (par : KnuthPlassParagraph)
    (shrink_ width_ stretch_ : Q) (value_ : ValueType) : KnuthPlassParagraph :=
  {| type    := push_back (type par) GLUE;
     shrink  := push_back (shrink par) shrink_;
     width   := push_back (width par) width_;
     stretch := push_back (stretch par) stretch_;
     value   := push_back (value par) value_;
     penalty := push_back (penalty par) 0;
     flagged := push_back (flagged par) false |}.

(** [void add_penalty(float width, float penalty, bool flagged, ValueType value)] *)
Definition add_penalty (par : KnuthPlassParagraph)
    (width_ penalty_ : Q) (flagged_ : bool) (value_ : ValueType)
    : KnuthPlassParagraph :=
  {| type    := push_back (type par) PENALTY;
     width   := push_back (width par) width_;
     penalty := push_back (penalty par) penalty_;
     flagged := push_back (flagged par) flagged_;
     value   := push_back (value par) value_;
     shrink  := push_back (shrink par) 0;
     stretch := push_back (stretch par) 0 |}.

(** [void add_box(float width, ValueType value)] *)
Definition add_box (par : KnuthPlassParagraph)
    (width_ : Q) (value_ : ValueType) : KnuthPlassParagraph :=
  {| type    := push_back (type par) BOX;
     width   := push_back (width par) width_;
     value   := push_back (value par) value_;
     shrink  := push_back (shrink par) 0;
     stretch := push_back (stretch par) 0;
     penalty := push_back (penalty par) 0;
     flagged := push_back (flagged par) false |}.

(** A call of one of the three builder methods, and a sequence of calls. *)
Inductive BuilderCall : Type :=
| CallBox (width_ : Q) (value_ : ValueType)
| CallGlue (shrink_ width_ stretch_ : Q) (value_ : ValueType)
| CallPenalty (width_ penalty_ : Q) (flagged_ : bool) (value_ : ValueType).

Definition run_call (par : KnuthPlassParagraph) (c : BuilderCall)
    : KnuthPlassParagraph :=
  match c with
  | CallBox w v => add_box par w v
  | CallGlue z w y v => add_glue par z w y v
  | CallPenalty w p f v => add_penalty par w p f v
  end.

Definition run_calls (par : KnuthPlassParagraph) (cs : list BuilderCall)
    : KnuthPlassParagraph :=
  fold_left run_call cs par.

(** All seven vectors have length [n]. *)
Definition parallel (n : nat) (par : KnuthPlassParagraph) : Prop :=
  length (type par) = n /\ length (width par) = n /\
  length (stretch par) = n /\ length (shrink par) = n /\
  length (penalty par) = n /\ length (flagged par) = n /\
  length (value par) = n.

End Paragraph.

Arguments mkParagraph {ValueType}.
Arguments type {ValueType}.
Arguments width {ValueType}.
Arguments stretch {ValueType}.
Arguments shrink {ValueType}.
Arguments penalty {ValueType}.
Arguments flagged {ValueType}.
Arguments value {ValueType}.
Arguments empty_paragraph {ValueType}.
Arguments add_glue {ValueType}.
Arguments add_penalty {ValueType}.
Arguments add_box {ValueType}.
Arguments CallBox {ValueType}.
Arguments CallGlue {ValueType}.
Arguments CallPenalty {ValueType}.
Arguments run_call {ValueType}.
Arguments run_calls {ValueType}.
Arguments parallel {ValueType}.

(** ** Break nodes *)

(** [class Break].  [addr] is the address of the object (see the header);
    [fitness_class] is a [float] in the source that only ever holds
    0, 1, 2 or 3. *)
#[warnings="-register-all"] Inductive Break : Type := mkBreak {
  addr          : nat;
  position      : nat;
  line          : nat;
  fitness_class : Z;
  demerits      : Q;
  ratio         : Q;
  previous      : option Break
}.

(** ** After the calculation: [r_width] *)

(** [double r_width(SuperULong i, double ratio)] *)
Definition r_width {V : Type} (par : KnuthPlassParagraph V)
    (i : nat) (ratio_ : Q) : Q :=
  if Qltb ratio_ 0
  then nth i (width par) 0 - (ratio_ * nth i (shrink par) 0)
  else nth i (width par) 0 + (ratio_ * nth i (stretch par) 0).

(** ** Prefix sums *)

(** The loop "populate sums" of [calc_knuth_plass_breaks] for one of the three
    arrays: [idx] are the remaining indices [i], [acc] is the running sum;
    the entry written at [i] is the running sum before [v[i]] is added. *)
Fixpoint populate (v : list Q) (idx : list nat) (acc : Q) : list Q :=
  match idx with
  | [] => []
  | i :: rest => acc :: populate v rest (acc + nth i v 0)
  end.

(** The three arrays [sum_width], [sum_stretch], [sum_shrink], each of
    [m = type.size()] entries. *)
Definition sum_width {V : Type} (par : KnuthPlassParagraph V) : list Q :=
  populate (width par) (seq 0 (length (type par))) 0.

Definition sum_stretch {V : Type} (par : KnuthPlassParagraph V) : list Q :=
  populate (stretch par) (seq 0 (length (type par))) 0.

Definition sum_shrink {V : Type} (par : KnuthPlassParagraph V) : list Q :=
  populate (shrink par) (seq 0 (length (type par))) 0.

(** ** The adjustment ratio *)

(** [line_lengths->back()]; undefined on an empty vector. *)
Definition back (line_lengths : list Q) : option Q :=
  match line_lengths with
  | [] => None
  | x :: rest => Some (last rest x)
  end.

(** [double compute_adjustment_ratio(pos1, pos2, line, line_lengths)].
    [None]: the source evaluates [back()] of an empty vector. *)
Definition compute_adjustment_ratio {V : Type} (par : KnuthPlassParagraph V)
    (pos1 pos2 line_ : nat) (line_lengths : list Q) : option Q :=
  let ideal_width := nth pos2 (sum_width par) 0 - nth pos1 (sum_width par) 0 in
  let ideal_width :=
    if SpecType_eqb (nth pos2 (type par) BOX) PENALTY
    then ideal_width + nth pos2 (width par) 0
    else ideal_width in
  let available :=
    if (line_ <? length line_lengths)%nat
    then nth_error line_lengths line_
    else back line_lengths in
  match available with
  | None => None
  | Some available_width =>
    Some
      (if Qltb ideal_width available_width then
         let y := nth pos2 (sum_stretch par) 0 - nth pos1 (sum_stretch par) 0 in
         if Qltb 0 y then (available_width - ideal_width) / y else INFq
       else if Qltb available_width ideal_width then
         let z := nth pos2 (sum_shrink par) 0 - nth pos1 (sum_shrink par) 0 in
         if Qltb 0 z then (available_width - ideal_width) / z else INFq
       else 0)
  end.

(** ** The active list *)

(** First loop of [add_active_node]: advance [index] while the node there
    has a smaller line number. *)
Fixpoint insertion_point (nodes : list Break) (ln : nat) (index : nat) : nat :=
  match nodes with
  | a :: rest =>
    if (line a <? ln)%nat then insertion_point rest ln (S index) else index
  | [] => index
  end.

(** Second loop of [add_active_node], run on the nodes from [insert_index]
    on: is there, among the leading nodes with the line of [node], one with
    its fitness class? *)
Fixpoint has_match (nodes : list Break) (node : Break) : bool :=
  match nodes with
  | a :: rest =>
    if (line a =? line node)%nat then
      if (fitness_class a =? fitness_class node)%Z
         && (line a =? line node)%nat
      then true
      else has_match rest node
    else false
  | [] => false
  end.

(** [void add_active_node(active_nodes, node)] *)
Definition add_active_node (active_nodes : list Break) (node : Break)
    : list Break :=
  let insert_index := insertion_point active_nodes (line node) 0 in
  if has_match (skipn insert_index active_nodes) node
  then active_nodes
  else firstn insert_index active_nodes
       ++ node :: skipn insert_index active_nodes.

(** ** Feasible breakpoints *)

(** [bool is_feasible_breakpoint(SuperULong i)] *)
Definition is_feasible_breakpoint {V : Type} (par : KnuthPlassParagraph V)
    (i : nat) : bool :=
  if SpecType_eqb (nth i (type par) BOX) PENALTY
     && Qltb (nth i (penalty par) 0) INFq
  then true
  else if (0 <? i)%nat
          && SpecType_eqb (nth (i - 1) (type par) BOX) BOX
          && SpecType_eqb (nth i (type par) BOX) GLUE
  then true
  else false.

(** ** The main driver: [calc_knuth_plass_breaks] *)

(** The four optional arguments of [calc_knuth_plass_breaks]. *)
Record Options : Type := mkOptions {
  looseness       : Q;
  tolerance       : Q;
  fitness_demerit : Q;
  flagged_demerit : Q
}.

(** [looseness = 0.0, tolerance = 1.0, fitness_demerit = 100.0,
    flagged_demerit = 100.0] *)
Definition default_options : Options := mkOptions 0 1 100 100.

(** The demerits of a line before the flagged and fitness additions: the
    three-way [if] on [p = penalty[B]] in the loop body.  The middle test of
    the source is [penalty[B] > INF]. *)
Definition line_demerits (r p : Q) : Q :=
  if Qle_bool 0 p then
    1 + 100 * ((Qabs r) ^ 3 + p) ^ 3
  else if Qltb INFq p then
    1 + 100 * ((Qabs r) ^ 3) ^ 2 - p ^ 2
  else
    1 + 100 * ((Qabs r) ^ 3) ^ 2.

(** The fitness class of a line with ratio [r]. *)
Definition classify (r : Q) : Z :=
  if Qltb r (- (1 # 2)) then 0%Z
  else if Qle_bool r (1 # 2) then 1%Z
  else if Qle_bool r 1 then 2%Z
  else 3%Z.

(** The body of the loop over the active nodes, for the active node [A] and
    the breakpoint [B]: whether [A] is pushed on [breaks_to_deactivate], and
    the node pushed on [breaks_to_activate], if any, allocated at [fresh].
    [None]: the ratio is undefined. *)
Definition examine {V : Type} (par : KnuthPlassParagraph V)
    (line_lengths : list Q) (opts : Options) (B : nat) (A : Break)
    (fresh : nat) : option (bool * option Break) :=
  match compute_adjustment_ratio par (position A) B (line A) line_lengths with
  | None => None
  | Some r =>
    let deactivate_A := Qltb r (- 1) || Qltb INFq (nth B (penalty par) 0) in
    let candidate :=
      if Qle_bool (- 1) r && Qle_bool r (tolerance opts) then
        let p := nth B (penalty par) 0 in
        let d := line_demerits r p in
        let d :=
          if nth (position A) (flagged par) false && nth B (flagged par) false
          then d + flagged_demerit opts else d in
        let fc := classify r in
        let d :=
          if (1 <? Z.abs (fc - fitness_class A))%Z
          then d + fitness_demerit opts else d in
        Some (mkBreak fresh B (line A + 1) fc d r (Some A))
      else None in
    Some (deactivate_A, candidate)
  end.

(** The loop [for j < active_nodes.size()]: the two working lists it fills
    and the next free address. *)
Fixpoint scan_active {V : Type} (par : KnuthPlassParagraph V)
    (line_lengths : list Q) (opts : Options) (B : nat)
    (nodes : list Break) (fresh : nat)
    : option (list Break * list Break * nat) :=
  match nodes with
  | [] => Some ([], [], fresh)
  | A :: rest =>
    match examine par line_lengths opts B A fresh with
    | None => None
    | Some (deactivate_A, candidate) =>
      let fresh' := match candidate with Some _ => S fresh | None => fresh end in
      match scan_active par line_lengths opts B rest fresh' with
      | None => None
      | Some (to_deactivate, to_activate, fresh'') =>
        Some (if deactivate_A then A :: to_deactivate else to_deactivate,
              match candidate with
              | Some node => node :: to_activate
              | None => to_activate
              end,
              fresh'')
      end
    end
  end.

(** The inner loop over [k]: erase the first entry that is the same object
    as [break_node]. *)
Fixpoint erase_node (active_nodes : list Break) (break_node : Break)
    : list Break :=
  match active_nodes with
  | [] => []
  | a :: rest =>
    if (addr a =? addr break_node)%nat then rest
    else a :: erase_node rest break_node
  end.

(** "Remove all breaks that need to be removed": stops as soon as one
    active node is left. *)
Fixpoint deactivate (active_nodes : list Break) (to_deactivate : list Break)
    : list Break :=
  match to_deactivate with
  | [] => active_nodes
  | break_node :: rest =>
    if (length active_nodes =? 1)%nat then active_nodes
    else deactivate (erase_node active_nodes break_node) rest
  end.

(** "add all new breaks that need to be added" *)
Definition activate (active_nodes : list Break) (to_activate : list Break)
    : list Break :=
  fold_left add_active_node to_activate active_nodes.

(** The state carried by the loop over [B]: the active nodes and the next
    free address. *)
Definition Frontier : Type := (list Break * nat)%type.

(** One iteration of the loop over [B]. *)
Definition process_item {V : Type} (par : KnuthPlassParagraph V)
    (line_lengths : list Q) (opts : Options) (B : nat) (st : Frontier)
    : option Frontier :=
  if is_feasible_breakpoint par B then
    match scan_active par line_lengths opts B (fst st) (snd st) with
    | None => None
    | Some (to_deactivate, to_activate, fresh) =>
      Some (activate (deactivate (fst st) to_deactivate) to_activate, fresh)
    end
  else Some st.

(** The iterations of the loop over [B] for the indices [Bs]. *)
Fixpoint main_loop {V : Type} (par : KnuthPlassParagraph V)
    (line_lengths : list Q) (opts : Options) (Bs : list nat) (st : Frontier)
    : option Frontier :=
  match Bs with
  | [] => Some st
  | B :: rest =>
    match process_item par line_lengths opts B st with
    | None => None
    | Some st' => main_loop par line_lengths opts rest st'
    end
  end.

(** [std::make_shared<Break>(0, 0, 1, 0, 0, nullptr)] *)
Definition origin : Break := mkBreak 0 0 0 1 0 0 None.

(** The state after the first [n] iterations of the loop over [B]. *)
Definition after_items {V : Type} (par : KnuthPlassParagraph V)
    (line_lengths : list Q) (opts : Options) (n : nat) : option Frontier :=
  main_loop par line_lengths opts (seq 0 n) ([origin], 1%nat).

(** The whole forward pass, [B] from [0] to [m - 1]. *)
Definition forward_pass {V : Type} (par : KnuthPlassParagraph V)
    (line_lengths : list Q) (opts : Options) : option Frontier :=
  after_items par line_lengths opts (length (type par)).

(** ** Terminal selection and reconstruction *)

(** "Find the active node with the lowest number of demerits": the loop
    over [i], started with [A = active_nodes.at(0)]. *)
Fixpoint lowest_demerits (nodes : list Break) (A : Break) : Break :=
  match nodes with
  | [] => A
  | n :: rest =>
    lowest_demerits rest (if Qltb (demerits n) (demerits A) then n else A)
  end.

(** Conversion of a [double] to [unsigned int] in [d = br->demerits]:
    truncation towards zero; undefined when the truncated value does not fit
    32 bits. *)
Definition to_unsigned_int (x : Q) : option Z :=
  let t := Z.quot (Qnum x) (Zpos (Qden x)) in
  if ((0 <=? t) && (t <? 2 ^ 32))%Z then Some t else None.

(** [SuperULong delta = br->line - A->line;] *)
Definition line_delta (br A : Break) : Z :=
  ((Z.of_nat (line br) - Z.of_nat (line A)) mod 2 ^ 64)%Z.

(** The loop of the looseness branch, with its variables [best], [d] and
    [b] ([None] is the null pointer).  Outer [None]: undefined conversion. *)
Fixpoint looseness_loop (looseness_ : Q) (A : Break) (nodes : list Break)
    (best d : Z) (b : option Break) : option (option Break) :=
  match nodes with
  | [] => Some b
  | br :: rest =>
    let delta := line_delta br A in
    if (Qle_bool looseness_ (inject_Z delta) && (delta <? best)%Z)
       || ((best <? delta)%Z || Qltb (inject_Z delta) looseness_)
    then
      match to_unsigned_int (demerits br) with
      | None => None
      | Some d' => looseness_loop looseness_ A rest best d' (Some br)
      end
    else if (delta =? best)%Z && Qltb (demerits br) (inject_Z d) then
      match to_unsigned_int (demerits br) with
      | None => None
      | Some d' => looseness_loop looseness_ A rest best d' (Some br)
      end
    else looseness_loop looseness_ A rest best d b
  end.

(** "Generate the list of chosen break points", before the reversal: [A],
    its predecessor, ... up to but without the node that has no
    predecessor. *)
Fixpoint walk_back (A : Break) : list Break :=
  match A with
  | mkBreak _ _ _ _ _ _ prev =>
    match prev with
    | None => []
    | Some P => A :: walk_back P
    end
  end.

(** What a call of [calc_knuth_plass_breaks] does: it stores a break list in
    [this->breaks], or [active_nodes.at(0)] throws, or the behaviour is
    undefined ([back()] of an empty vector, an unrepresentable conversion, a
    null [A]). *)
Inductive Outcome : Type :=
| Returned (breaks : list Break)
| OutOfRange
| Undefined.

(** The selection after the forward pass, for a non-empty active list whose
    first node is [first]: the final value of [A].  [None]: [A] is null or
    a conversion was undefined. *)
Definition select_terminal (opts : Options) (first : Break)
    (active_nodes : list Break) : option Break :=
  let A := lowest_demerits active_nodes first in
  if negb (Qeq_bool (looseness opts) 0) then
    match looseness_loop (looseness opts) A active_nodes 0 INF None with
    | None => None
    | Some b => b
    end
  else Some A.

(** [void calc_knuth_plass_breaks(line_lengths, looseness, tolerance,
    fitness_demerit, flagged_demerit)] *)
Definition calc_knuth_plass_breaks {V : Type} (par : KnuthPlassParagraph V)
    (line_lengths : list Q) (opts : Options) : Outcome :=
  match forward_pass par line_lengths opts with
  | None => Undefined
  | Some (active_nodes, _) =>
    match active_nodes with
    | [] => OutOfRange
    | first :: _ =>
      match select_terminal opts first active_nodes with
      | None => Undefined
      | Some A => Returned (rev (walk_back A))
      end
    end
  end.

(** ** The standard paragraph end *)

(** The end of a paragraph as the tokenizer is to build it: a forbidden
    break [add_penalty(0, INF, false)], a filling glue
    [add_glue(0, 0, INF)] (shrink 0, width 0, stretch [INF]) and a forced
    break [add_penalty(0, -INF, true)], the last penalty being the number
    -10000.  ([make_simple_paragraph] writes that argument as [-INF] on the
    unsigned constant; the function is not part of this model.) *)
Definition paragraph_end {V : Type} (v : V) : list (BuilderCall V) :=
  [ CallPenalty 0 INFq false v;
    CallGlue 0 0 INFq v;
    CallPenalty 0 (- INFq) true v ].

(** ** Properties of the active list *)

(** The pair on which [add_active_node] compares nodes. *)
Definition key (b : Break) : nat * Z := (line b, fitness_class b).

(** No two nodes share [(line, fitness_class)]. *)
Definition unique_keys (nodes : list Break) : Prop := NoDup (map key nodes).

(** Line numbers ascend along the list. *)
Fixpoint sorted_by_line (nodes : list Break) : Prop :=
  match nodes with
  | [] => True
  | a :: rest =>
    Forall (fun b => (line a <= line b)%nat) rest /\ sorted_by_line rest
  end.

(** The values [active_nodes] takes during the forward pass: at the head of
    the loop over [B] (and after it), after each iteration of the removal
    loop, and after each call of [add_active_node]. *)
Inductive frontier_point {V : Type} (par : KnuthPlassParagraph V)
    (line_lengths : list Q) (opts : Options) : list Break -> Prop :=
| at_loop_head (n : nat) (st : Frontier) :
    (n <= length (type par))%nat ->
    after_items par line_lengths opts n = Some st ->
    frontier_point par line_lengths opts (fst st)
| in_removal (B : nat) (st : Frontier) (to_deactivate to_activate : list Break)
    (fresh i : nat) :
    (B < length (type par))%nat ->
    after_items par line_lengths opts B = Some st ->
    is_feasible_breakpoint par B = true ->
    scan_active par line_lengths opts B (fst st) (snd st)
      = Some (to_deactivate, to_activate, fresh) ->
    frontier_point par line_lengths opts
      (deactivate (fst st) (firstn i to_deactivate))
| in_insertion (B : nat) (st : Frontier) (to_deactivate to_activate : list Break)
    (fresh i : nat) :
    (B < length (type par))%nat ->
    after_items par line_lengths opts B = Some st ->
    is_feasible_breakpoint par B = true ->
    scan_active par line_lengths opts B (fst st) (snd st)
      = Some (to_deactivate, to_activate, fresh) ->
    frontier_point par line_lengths opts
      (activate (deactivate (fst st) to_deactivate) (firstn i to_activate)).

(** The ratio of every node on the way back from [A] (the origin apart) is
    within [[-1, tol]]. *)
Fixpoint ratios_within (tol : Q) (A : Break) : Prop :=
  match A with
  | mkBreak _ _ _ _ _ r prev =>
    match prev with
    | None => True
    | Some P => (- 1 <= r /\ r <= tol) /\ ratios_within tol P
    end
  end.

(** ** Reference definitions, written after the specification *)

(** The natural width entering [W]: a penalty contributes nothing. *)
Definition natural_width {V : Type} (par : KnuthPlassParagraph V) (k : nat) : Q :=
  if SpecType_eqb (nth k (type par) BOX) PENALTY then 0
  else nth k (width par) 0.

(** [W[i]], the sum of the natural widths of the items [0 .. i-1]. *)
Definition W_reference {V : Type} (par : KnuthPlassParagraph V) (i : nat) : Q :=
  fold_left Qplus (map (natural_width par) (seq 0 i)) 0.

(** The three-branch base demerits. *)
Definition reference_demerits (r p : Q) : Q :=
  if Qle_bool 0 p then (1 + 100 * (Qabs r) ^ 3 + p) ^ 3
  else if Qltb (- INFq) p then (1 + 100 * (Qabs r) ^ 3) ^ 2 - p ^ 2
  else (1 + 100 * (Qabs r) ^ 3) ^ 2.

(** The set width of a glue item: natural width plus [ratio * stretch] for
    a ratio [>= 0], natural width plus [ratio * shrink] for a negative one. *)
Definition reference_set_width {V : Type} (par : KnuthPlassParagraph V)
    (i : nat) (ratio_ : Q) : Q :=
  if Qltb ratio_ 0
  then nth i (width par) 0 + (ratio_ * nth i (shrink par) 0)
  else nth i (width par) 0 + (ratio_ * nth i (stretch par) 0).

(** The width of the line made of the items [a .. b-1] (and of the penalty
    at [b], when the break is one), each item set by [set]. *)
Definition line_set_width {V : Type} (par : KnuthPlassParagraph V)
    (set : nat -> Q -> Q) (a b : nat) (ratio_ : Q) : Q :=
  fold_left Qplus (map (fun k => set k ratio_) (seq a (b - a))) 0
  + (if SpecType_eqb (nth b (type par) BOX) PENALTY
     then nth b (width par) 0 else 0).

(** ** Concrete paragraphs *)

(** Two boxes around a discretionary hyphen of width 1, and the paragraph
    end. *)
Definition hyphenated : KnuthPlassParagraph unit :=
  run_calls empty_paragraph
    ([CallBox 1 tt; CallPenalty 1 50 true tt; CallBox 1 tt]
     ++ paragraph_end tt).

(** A box that fills the line, followed by a penalty of cost 1. *)
Definition box_penalty (p : Q) : KnuthPlassParagraph unit :=
  run_calls empty_paragraph [CallBox 10 tt; CallPenalty 0 p false tt].

(** Two full lines, each a box and a rigid glue, closed by a forced break. *)
Definition two_lines_forced : KnuthPlassParagraph unit :=
  run_calls empty_paragraph
    [CallBox 10 tt; CallGlue 0 0 0 tt; CallBox 10 tt; CallGlue 0 0 0 tt;
     CallPenalty 0 (- INFq) false tt].

(** Three words of width 4 separated by glue [(shrink 1, width 2,
    stretch 1)], and the paragraph end. *)
Definition three_words : KnuthPlassParagraph unit :=
  run_calls empty_paragraph
    ([CallBox 4 tt; CallGlue 1 2 1 tt; CallBox 4 tt; CallGlue 1 2 1 tt;
      CallBox 4 tt] ++ paragraph_end tt).

(** Two words of width 10 separated by a shrinkable glue, and the paragraph
    end: no line of length 3 can hold them. *)
Definition wide_words : KnuthPlassParagraph unit :=
  run_calls empty_paragraph
    ([CallBox 10 tt; CallGlue 1 1 0 tt; CallBox 10 tt] ++ paragraph_end tt).

(** A single box. *)
Definition one_box : KnuthPlassParagraph unit :=
  run_calls empty_paragraph [CallBox 1 tt].

(** A rendering of a node without its predecessor, for evaluation. *)
Definition summary (b : Break) : nat * nat * Z * Q * Q :=
  (position b, line b, fitness_class b, Qred (demerits b), Qred (ratio b)).

(** A paragraph whose only survivor carries demerits above [INF]: a
    shrinkable glue, a word, a penalty of cost 5, a short word, a penalty
    of cost 5. *)
Definition costly_breaks : KnuthPlassParagraph unit :=
  run_calls empty_paragraph
    [CallGlue 1 0 0 tt; CallBox 10 tt; CallPenalty 0 5 false tt;
     CallBox 5 tt; CallPenalty 0 5 false tt].

(** Two boxes in a row: no item is a feasible breakpoint. *)
Definition two_boxes : KnuthPlassParagraph unit :=
  run_calls empty_paragraph [CallBox 1 tt; CallBox 2 tt].

(** The options with a looseness. *)
Definition with_looseness (q : Q) : Options := mkOptions q 1 100 100.

(** The active list after the forward pass over [two_lines_forced] with
    lines of length 10. *)
Definition two_lines_frontier : list Break :=
  Eval vm_compute in
    match forward_pass two_lines_forced [10] default_options with
    | Some st => fst st
    | None => []
    end.

(** The breaks stored for [three_words] with lines of length 9. *)
Definition three_words_breaks : list Break :=
  Eval vm_compute in
    match calc_knuth_plass_breaks three_words [9] default_options with
    | Returned breaks => breaks
    | _ => []
    end.

(** ** Segments, available width and the history of a node *)

(** The sum of [v[k]] over [a <= k < b]. *)
Definition segment_sum (v : list Q) (a b : nat) : Q :=
  fold_left Qplus (map (fun k => nth k v 0) (seq a (b - a))) 0.

(** [ideal_width] of [compute_adjustment_ratio], after the test on
    [type[pos2]]. *)
Definition ideal_width {V : Type} (par : KnuthPlassParagraph V)
    (pos1 pos2 : nat) : Q :=
  let ideal := nth pos2 (sum_width par) 0 - nth pos1 (sum_width par) 0 in
  if SpecType_eqb (nth pos2 (type par) BOX) PENALTY
  then ideal + nth pos2 (width par) 0
  else ideal.

(** [available_width] of [compute_adjustment_ratio]; [None] when [back()]
    is evaluated on an empty vector. *)
Definition available_width (line_lengths : list Q) (line_ : nat) : option Q :=
  if (line_ <? length line_lengths)%nat
  then nth_error line_lengths line_
  else back line_lengths.

(** How a node came to be: it is the origin, or it is the candidate that
    the loop body created at the feasible breakpoint [position A] from its
    predecessor, itself such a node and, unless it is the origin, placed
    strictly before. *)
Fixpoint built_by {V : Type} (par : KnuthPlassParagraph V)
    (line_lengths : list Q) (opts : Options) (A : Break) : Prop :=
  match A with
  | mkBreak _ _ _ _ _ _ prev =>
    match prev with
    | None => A = origin
    | Some P =>
      ((position A < length (type par))%nat
       /\ is_feasible_breakpoint par (position A) = true
       /\ (previous P = None \/ (position P < position A)%nat)
       /\ (1 <= addr A)%nat
       /\ exists dA,
           examine par line_lengths opts (position A) P (addr A)
           = Some (dA, Some A))
      /\ built_by par line_lengths opts P
    end
  end.

(** Strictly ascending natural numbers. *)
Fixpoint ascending (l : list nat) : Prop :=
  match l with
  | [] => True
  | x :: rest => Forall (fun y => (x < y)%nat) rest /\ ascending rest
  end.

(** ** [make_simple_paragraph] *)

(** The characters of a C string: those before the first NUL, as [strlen]
    counts them. *)
Fixpoint c_str (text : list ascii) : list ascii :=
  match text with
  | [] => []
  | c :: rest => if Ascii.eqb c "000" then [] else c :: c_str rest
  end.

(** The value of the expression [-INF]: unary minus on an [unsigned int],
    computed modulo [2^32].  The conversion to the [float] parameter rounds
    it; only its being above [INF] is used below. *)
Definition minus_INF_unsigned : Z := ((- INF) mod 2 ^ 32)%Z.

(** The six [case] labels that add a glue. *)
Definition is_blank (c : ascii) : bool :=
  Ascii.eqb c "010" || Ascii.eqb c "009" || Ascii.eqb c "013"
  || Ascii.eqb c "011" || Ascii.eqb c "012" || Ascii.eqb c " ".

(** The [switch] on a character of the text. *)
Definition simple_call (c : ascii) : BuilderCall ascii :=
  if is_blank c then CallGlue 1 2 1 " "%char
  else if Ascii.eqb c "@" then
    CallPenalty 0 (inject_Z minus_INF_unsigned) false c
  else if Ascii.eqb c "~" then CallPenalty 0 INFq false c
  else CallBox 1 c.

(** The three calls under "Add standard paragraph end", with [-INF] as the
    source evaluates it. *)
Definition simple_paragraph_end : list (BuilderCall ascii) :=
  [ CallPenalty 0 INFq false " "%char;
    CallGlue 0 0 INFq " "%char;
    CallPenalty 0 (inject_Z minus_INF_unsigned) true " "%char ].

(** [KnuthPlassParagraph<char> *make_simple_paragraph(const char *text)] *)
Definition make_simple_paragraph (text : list ascii)
    : KnuthPlassParagraph ascii :=
  run_calls (run_calls empty_paragraph (map simple_call (c_str text)))
            simple_paragraph_end.

(** ** [insert_spaces] *)

(** The [for] loop of [insert_spaces] over the characters of [str], with
    its variables [out], [num_spaces] (a [size_t], modulo [2^64]),
    [added_space] and [add_space]. *)
Fixpoint insert_spaces_scan (isspace : ascii -> bool) (chars : list ascii)
    (out : list ascii) (num_spaces : Z) (added_space add_space : bool)
    : list ascii * Z * bool * bool :=
  match chars with
  | [] => (out, num_spaces, added_space, add_space)
  | ch :: rest =>
    if (0 <? num_spaces)%Z && add_space && isspace ch then
      insert_spaces_scan isspace rest ((out ++ [" "%char]) ++ [ch])
        ((num_spaces - 1) mod 2 ^ 64)%Z true false
    else
      insert_spaces_scan isspace rest (out ++ [ch]) num_spaces true add_space
  end.

(** [void insert_spaces(std::string *str, size_t num_spaces)]: the value of
    [*str] when the function returns; [None] when the [while (true)] loop
    has not left after [fuel] iterations. *)
Fixpoint insert_spaces (fuel : nat) (isspace : ascii -> bool)
    (str : list ascii) (num_spaces : Z) : option (list ascii) :=
  match fuel with
  | O => None
  | S fuel' =>
    match insert_spaces_scan isspace str [] num_spaces false false with
    | (out, num_spaces, added_space, _) =>
      let out := if added_space then out else out ++ [" "%char] in
      let num_spaces :=
        if added_space then num_spaces else ((num_spaces - 1) mod 2 ^ 64)%Z in
      if (num_spaces <=? 0)%Z then Some str
      else insert_spaces fuel' isspace out num_spaces
    end
  end.

(** ** [str_for_simple_paragraph] *)

Inductive Justify : Type := LEFT | RIGHT | CENTER | FULL.

(** Conversion of a [double] to [unsigned long]: truncation; undefined
    when the truncated value does not fit 64 bits. *)
Definition to_unsigned_long (x : Q) : option Z :=
  let t := Z.quot (Qnum x) (Zpos (Qden x)) in
  if ((0 <=? t) && (t <? 2 ^ 64))%Z then Some t else None.

(** [r_width] with the range checks of [at]: [None] when [at] throws. *)
Definition r_width_at {V : Type} (par : KnuthPlassParagraph V)
    (i : nat) (ratio_ : Q) : option Q :=
  if (i <? length (width par))%nat
     && (if Qltb ratio_ 0 then (i <? length (shrink par))%nat
         else (i <? length (stretch par))%nat)
  then Some (r_width par i ratio_)
  else None.

(** One turn of the loop "Build the line", for item [j] of the line that
    ends at the break number [i]: the characters appended to [curr_line].
    [None]: an [at] throws or the conversion is undefined. *)
Definition build_item (par : KnuthPlassParagraph ascii) (justified : Justify)
    (i : nat) (curr_break : Break) (j : nat) : option (list ascii) :=
  match nth_error (type par) j with
  | None => None
  | Some GLUE =>
    let spaces_needed :=
      match justified with
      | FULL =>
        match r_width_at par i (ratio curr_break) with
        | None => None
        | Some w => to_unsigned_long w
        end
      | _ => Some 1%Z
      end in
    match spaces_needed with
    | None => None
    | Some n => Some (repeat " "%char (Z.to_nat n))
    end
  | Some BOX =>
    match nth_error (value par) j with
    | None => None
    | Some c => Some [c]
    end
  | Some PENALTY =>
    match nth_error (flagged par) j with
    | None => None
    | Some f =>
      Some (if f && (j =? position curr_break)%nat then ["-"%char] else [])
    end
  end.

(** The loop [while (j < end_pos)] over the items [js]. *)
Fixpoint build_line (par : KnuthPlassParagraph ascii) (justified : Justify)
    (i : nat) (curr_break : Break) (js : list nat) (curr_line : list ascii)
    : option (list ascii) :=
  match js with
  | [] => Some curr_line
  | j :: rest =>
    match build_item par justified i curr_break j with
    | None => None
    | Some chars =>
      build_line par justified i curr_break rest (curr_line ++ chars)
    end
  end.

(** The loop over the breaks [par->breaks.at(i)], [i] counting from
    [i0], with the item counter [j] and the string [out]. *)
Fixpoint build_lines (par : KnuthPlassParagraph ascii) (justified : Justify)
    (end_mark : option (list ascii)) (newline : list ascii)
    (breaks : list Break) (i j : nat) (out : list ascii)
    : option (list ascii) :=
  match breaks with
  | [] => Some out
  | curr_break :: rest =>
    let end_pos := position curr_break in
    match build_line par justified i curr_break (seq j (end_pos - j)) [] with
    | None => None
    | Some curr_line =>
      let curr_line :=
        match end_mark with
        | Some mark => curr_line ++ mark
        | None => curr_line
        end in
      build_lines par justified end_mark newline rest (S i)
        (Nat.max j end_pos) (out ++ (curr_line ++ newline))
    end
  end.

(** [std::string *str_for_simple_paragraph(par, justified, end_mark)]: the
    string returned, for the break list [breaks] stored in [par->breaks]
    and the platform's [NEWLINE]; the lines written to [std::cout] are not
    part of the model. *)
Definition str_for_simple_paragraph (par : KnuthPlassParagraph ascii)
    (breaks : list Break) (justified : Justify)
    (end_mark : option (list ascii)) (newline : list ascii)
    : option (list ascii) :=
  build_lines par justified end_mark newline breaks 0 0 [].

(** The characters an item stands for in a line that is not fully
    justified. *)
Definition item_text (par : KnuthPlassParagraph ascii) (j : nat)
    : list ascii :=
  match nth j (type par) BOX with
  | GLUE => [" "%char]
  | BOX => [nth j (value par) " "%char]
  | PENALTY => []
  end.

(** The lines of a text cut at the positions [cuts], each followed by
    [tail]; the text after the last cut is left out. *)
Fixpoint cut_text (text : list ascii) (tail : list ascii) (cuts : list nat)
    (j : nat) : list ascii :=
  match cuts with
  | [] => []
  | b :: rest =>
    (firstn (b - j) (skipn j text) ++ tail)
    ++ cut_text text tail rest (Nat.max j b)
  end.

(** A character for which [make_simple_paragraph] adds a box or a glue that
    prints as itself: neither ['@'] nor ['~'], and no blank other than the
    space. *)
Definition prints_as_itself (c : ascii) : bool :=
  negb (Ascii.eqb c "@") && negb (Ascii.eqb c "~")
  && (negb (is_blank c) || Ascii.eqb c " ").

(** The text "ab cd ef gh". *)
Definition sample_text : list ascii :=
  ["a"; "b"; " "; "c"; "d"; " "; "e"; "f"; " "; "g"; "h"]%char.

(** The type and the penalty a builder call stores. *)
Definition call_type {V : Type} (c : BuilderCall V) : SpecType :=
  match c with
  | CallBox _ _ => BOX
  | CallGlue _ _ _ _ => GLUE
  | CallPenalty _ _ _ _ => PENALTY
  end.

Definition call_penalty {V : Type} (c : BuilderCall V) : Q :=
  match c with
  | CallPenalty _ p _ _ => p
  | _ => 0
  end.

Definition call_value {V : Type} (c : BuilderCall V) : V :=
  match c with
  | CallBox _ v | CallGlue _ _ _ v | CallPenalty _ _ _ v => v
  end.

(** A character for which [make_simple_paragraph] adds a box. *)
Definition is_ordinary (c : ascii) : bool :=
  negb (is_blank c) && negb (Ascii.eqb c "@") && negb (Ascii.eqb c "~").

(** The breaks stored for the simple paragraph of [sample_text] with lines
    of length 6. *)
Definition sample_breaks : list Break :=
  Eval vm_compute in
    match calc_knuth_plass_breaks (make_simple_paragraph sample_text) [6]
            default_options with
    | Returned breaks => breaks
    | _ => []
    end.

(** The characters of an optional end mark. *)
Definition mark_text (end_mark : option (list ascii)) : list ascii :=
  match end_mark with
  | Some mark => mark
  | None => []
  end.

(** Two syllables around a discretionary hyphen (a flagged penalty of
    width 1), each followed by a glue. *)
Definition hyphen_word : KnuthPlassParagraph ascii :=
  run_calls empty_paragraph
    [CallBox 3 "a"%char; CallPenalty 1 50 true "h"%char;
     CallGlue 1 0 0 " "%char; CallBox 3 "b"%char; CallGlue 1 1 1 " "%char].

(** The breaks stored for [hyphen_word] with lines of length 4: the first
    is at the flagged penalty. *)
Definition hyphen_breaks : list Break :=
  Eval vm_compute in
    match calc_knuth_plass_breaks hyphen_word [4] default_options with
    | Returned breaks => breaks
    | _ => []
    end.

(** * Properties *)

(** ** Comparisons *)

Lemma Qltb_lt (x y : Q) : Qltb x y = true <-> x < y.
Proof.
  unfold Qltb. rewrite negb_true_iff.
  split.
  - intro H. apply Qnot_le_lt. intro L.
    apply Qle_bool_iff in L. congruence.
  - intro H. destruct (Qle_bool y x) eqn:E; [|reflexivity].
    apply Qle_bool_iff in E. exfalso. exact (Qlt_not_le _ _ H E).
Qed.

Lemma Qltb_ge (x y : Q) : Qltb x y = false <-> y <= x.
Proof.
  unfold Qltb. rewrite negb_false_iff. apply Qle_bool_iff.
Qed.

(** ** The builder keeps the seven vectors parallel *)

Lemma length_push_back {A : Type} (v : list A) (x : A) :
  length (push_back v x) = S (length v).
Proof.
  unfold push_back. rewrite length_app. simpl. lia.
Qed.

Lemma run_call_parallel {V : Type} (par : KnuthPlassParagraph V)
    (c : BuilderCall V) (n : nat) :
  parallel n par -> parallel (S n) (run_call par c).
Proof.
  unfold parallel.
  intros (Ht & Hw & Hy & Hz & Hp & Hf & Hv).
  destruct c; simpl; rewrite !length_push_back; repeat split; congruence.
Qed.

Lemma run_calls_parallel {V : Type} (cs : list (BuilderCall V)) :
  forall (par : KnuthPlassParagraph V) (n : nat),
    parallel n par -> parallel (n + length cs) (run_calls par cs).
Proof.
  induction cs as [|c cs IH]; intros par n H; simpl.
  - now rewrite Nat.add_0_r.
  - replace (n + S (length cs))%nat with (S n + length cs)%nat by lia.
    apply IH. now apply run_call_parallel.
Qed.

(** C10.  After any sequence of [add_box], [add_glue] and [add_penalty]
    calls on a fresh paragraph the seven vectors [type], [width],
    [stretch], [shrink], [penalty], [flagged] and [value] have the same
    length (the number of calls); each call appends exactly one entry to
    every vector, and the entries of the fields the variant does not use
    are [0] or [false]. *)
Theorem builder_keeps_vectors_parallel {V : Type} :
  (forall cs : list (BuilderCall V),
      parallel (length cs) (run_calls empty_paragraph cs))
  /\ (forall (par : KnuthPlassParagraph V) (c : BuilderCall V),
      exists t w y z p f v,
        run_call par c =
          mkParagraph (type par ++ [t]) (width par ++ [w])
                      (stretch par ++ [y]) (shrink par ++ [z])
                      (penalty par ++ [p]) (flagged par ++ [f])
                      (value par ++ [v])
        /\ match c with
           | CallBox w' _ =>
               t = BOX /\ w = w' /\ y = 0 /\ z = 0 /\ p = 0 /\ f = false
           | CallGlue z' w' y' _ =>
               t = GLUE /\ w = w' /\ y = y' /\ z = z' /\ p = 0 /\ f = false
           | CallPenalty w' p' f' _ =>
               t = PENALTY /\ w = w' /\ p = p' /\ f = f' /\ y = 0 /\ z = 0
           end).
Proof.
  split.
  - intro cs.
    apply (run_calls_parallel cs empty_paragraph 0%nat).
    unfold parallel; simpl; repeat split.
  - intros par c.
    destruct c as [w v | z w y v | w p f v]; simpl.
    + exists BOX, w, 0, 0, 0, false, v. repeat split.
    + exists GLUE, w, y, z, 0, false, v. repeat split.
    + exists PENALTY, w, 0, 0, p, f, v. repeat split.
Qed.

(** ** Prefix sums *)

Lemma populate_nth (v : list Q) :
  forall (n s : nat) (acc : Q) (i : nat),
    (i < n)%nat ->
    nth i (populate v (seq s n) acc) 0
    = fold_left Qplus (map (fun k => nth k v 0) (seq s i)) acc.
Proof.
  induction n as [|n IH]; intros s acc i Hi; [lia|].
  destruct i as [|i]; simpl; [reflexivity|].
  apply IH. lia.
Qed.

(** What the source stores: entry [i] of [sum_width] is the sum of
    [width[k]] over all [k < i], whatever the type of item [k]. *)
Lemma sum_width_spec {V : Type} (par : KnuthPlassParagraph V) (i : nat) :
  (i < length (type par))%nat ->
  nth i (sum_width par) 0
  = fold_left Qplus (map (fun k => nth k (width par) 0) (seq 0 i)) 0.
Proof.
  intro Hi. unfold sum_width. now apply populate_nth.
Qed.

(** C1, evaluated on [hyphenated] (a box, a discretionary hyphen of width 1
    that is not taken, a box, the paragraph end).  The source adds the width
    of every item to the running sum, so the unused hyphen is counted in
    [sum_width] from index 2 on (2 where the penalty-free sum [W] is 1),
    and the line from 0 to the final break measures 3 instead of 2: on a
    line of length 2 it is overfull (ratio [INF]) in the source and exact
    (natural width 2) with [W]. *)
Theorem penalty_width_enters_prefix_sums :
  sum_width hyphenated = [0; 1; 2; 3; 3; 3]
  /\ map (W_reference hyphenated) (seq 0 6) = [0; 1; 1; 2; 2; 2]
  /\ nth 1 (type hyphenated) BOX = PENALTY
  /\ compute_adjustment_ratio hyphenated 0 5 0 [2] = Some INFq
  /\ W_reference hyphenated 5 - W_reference hyphenated 0
     + nth 5 (width hyphenated) 0 == 2.
Proof.
  repeat split; vm_compute; reflexivity.
Qed.

(** ** Demerits *)

(** For a negative penalty the middle branch of [line_demerits] is never
    taken: its test asks for a penalty above [INF]. *)
Lemma line_demerits_negative (r p : Q) :
  p < 0 -> line_demerits r p = 1 + 100 * ((Qabs r) ^ 3) ^ 2.
Proof.
  intro Hp. unfold line_demerits.
  destruct (Qle_bool 0 p) eqn:E0.
  - apply Qle_bool_iff in E0. exfalso. exact (Qlt_not_le _ _ Hp E0).
  - destruct (Qltb INFq p) eqn:E1; [|reflexivity].
    apply Qltb_lt in E1. exfalso.
    apply (Qlt_irrefl p).
    apply Qlt_trans with 0; [exact Hp|].
    apply Qlt_trans with INFq; [reflexivity|exact E1].
Qed.

(** C2, evaluated.  On [box_penalty 1] with line length 10 the line from the
    origin to the penalty has ratio 0 and penalty 1: the node the source
    creates carries demerits [1 + 100 * (0 + 1)^3 = 101], the reference
    value is [(1 + 0 + 1)^3 = 8].  With penalty [-2] the source gives 1 and
    the reference [1 - 4 = -3]; at a forced break with ratio 1 the source
    gives [1 + 100 = 101] and the reference [101^2 = 10201]. *)
Theorem demerits_differ_from_reference :
  (exists node,
      forward_pass (box_penalty 1) [10] default_options
      = Some ([origin; node], 2%nat)
      /\ position node = 1%nat
      /\ ratio node = 0
      /\ nth 1 (penalty (box_penalty 1)) 0 = 1
      /\ demerits node == 101
      /\ reference_demerits 0 1 == 8)
  /\ (exists node,
      forward_pass (box_penalty (- (2))) [10] default_options
      = Some ([origin; node], 2%nat)
      /\ ratio node = 0
      /\ demerits node == 1
      /\ reference_demerits 0 (- (2)) == - (3))
  /\ line_demerits 1 (- INFq) == 101
  /\ reference_demerits 1 (- INFq) == 10201.
Proof.
  split; [|split; [|split]].
  - eexists. split; [vm_compute; reflexivity|].
    repeat split; vm_compute; reflexivity.
  - eexists. split; [vm_compute; reflexivity|].
    repeat split; vm_compute; reflexivity.
  - vm_compute; reflexivity.
  - vm_compute; reflexivity.
Qed.

(** ** The active list: [add_active_node] *)

Lemma sorted_by_line_app (l1 l2 : list Break) :
  sorted_by_line (l1 ++ l2) <->
  sorted_by_line l1 /\ sorted_by_line l2
  /\ (forall a b, In a l1 -> In b l2 -> (line a <= line b)%nat).
Proof.
  induction l1 as [|x l1 IH]; simpl.
  - split; [intro H; repeat split; [exact H | intros a b []] | tauto].
  - rewrite IH, Forall_app. split.
    + intros ((F1 & F2) & S1 & S2 & C). repeat split; try assumption.
      intros a b [<-|Ha] Hb.
      * rewrite Forall_forall in F2. now apply F2.
      * now apply C.
    + intros ((F1 & S1) & S2 & C). repeat split; try assumption.
      * apply Forall_forall. intros b Hb. apply C; [now left|exact Hb].
      * intros a b Ha Hb. apply C; [now right|exact Hb].
Qed.

(** The first loop splits the list: the nodes before the insertion point
    have a smaller line, the node at it (if any) does not. *)
Lemma insertion_point_split (nodes : list Break) (ln : nat) :
  forall index,
  exists pre suf,
    nodes = pre ++ suf
    /\ insertion_point nodes ln index = (index + length pre)%nat
    /\ Forall (fun a => (line a < ln)%nat) pre
    /\ match suf with [] => True | a :: _ => (ln <= line a)%nat end.
Proof.
  induction nodes as [|a rest IH]; intro index; simpl.
  - exists [], []. simpl. repeat split; [lia | constructor].
  - destruct (line a <? ln)%nat eqn:E.
    + apply Nat.ltb_lt in E.
      destruct (IH (S index)) as (pre & suf & -> & Hi & Hpre & Hsuf).
      exists (a :: pre), suf. simpl. repeat split; try assumption.
      * lia.
      * now constructor.
    + apply Nat.ltb_ge in E.
      exists [], (a :: rest). simpl. repeat split; [lia | constructor | exact E].
Qed.

(** [add_active_node] in terms of that split. *)
Lemma add_active_node_split (nodes : list Break) (node : Break) :
  exists pre suf,
    nodes = pre ++ suf
    /\ Forall (fun a => (line a < line node)%nat) pre
    /\ match suf with [] => True | a :: _ => (line node <= line a)%nat end
    /\ add_active_node nodes node
       = if has_match suf node then nodes else pre ++ node :: suf.
Proof.
  destruct (insertion_point_split nodes (line node) 0)
    as (pre & suf & -> & Hi & Hpre & Hsuf).
  exists pre, suf. repeat split; try assumption.
  unfold add_active_node. rewrite Hi. simpl.
  rewrite firstn_app, skipn_app, Nat.sub_diag, firstn_all, skipn_all.
  simpl. now rewrite app_nil_r.
Qed.

Lemma has_match_key (suf : list Break) (node : Break) :
  has_match suf node = true -> In (key node) (map key suf).
Proof.
  induction suf as [|a rest IH]; simpl; [discriminate|].
  destruct (line a =? line node)%nat eqn:El; [|discriminate].
  rewrite andb_true_r.
  destruct (fitness_class a =? fitness_class node)%Z eqn:Ef.
  - intros _. left. unfold key.
    apply Nat.eqb_eq in El. apply Z.eqb_eq in Ef. congruence.
  - intro H. right. now apply IH.
Qed.

(** On a sorted tail that starts at or above the line of [node], the second
    loop finds every node with the key of [node]. *)
Lemma key_has_match (suf : list Break) (node : Break) :
  sorted_by_line suf ->
  Forall (fun a => (line node <= line a)%nat) suf ->
  In (key node) (map key suf) ->
  has_match suf node = true.
Proof.
  induction suf as [|a rest IH]; simpl; [intros _ _ []|].
  intros (Fa & S) Fall Hin.
  apply Forall_cons_iff in Fall. destruct Fall as (Ha & Frest).
  destruct (line a =? line node)%nat eqn:El.
  - rewrite andb_true_r.
    destruct (fitness_class a =? fitness_class node)%Z eqn:Ef; [reflexivity|].
    apply IH; try assumption.
    destruct Hin as [Hk|Hin]; [|exact Hin].
    apply Z.eqb_neq in Ef. unfold key in Hk. congruence.
  - apply Nat.eqb_neq in El. exfalso.
    assert (Hlt : (line node < line a)%nat) by lia.
    destruct Hin as [Hk|Hin].
    + unfold key in Hk. apply El. congruence.
    + apply in_map_iff in Hin. destruct Hin as (b & Hk & Hb).
      rewrite Forall_forall in Fa. specialize (Fa b Hb).
      unfold key in Hk. assert (line b = line node) by congruence. lia.
Qed.

Lemma sorted_tail_above (suf : list Break) (ln : nat) :
  sorted_by_line suf ->
  match suf with [] => True | a :: _ => (ln <= line a)%nat end ->
  Forall (fun a => (ln <= line a)%nat) suf.
Proof.
  destruct suf as [|a rest]; simpl; [constructor|].
  intros (Fa & _) Ha. constructor; [exact Ha|].
  eapply Forall_impl; [|exact Fa]. simpl. intros b Hb. lia.
Qed.

(** A node whose key is already present is dropped. *)
Lemma add_active_node_drops (nodes : list Break) (node : Break) :
  sorted_by_line nodes ->
  In (key node) (map key nodes) ->
  add_active_node nodes node = nodes.
Proof.
  intros Hs Hin.
  destruct (add_active_node_split nodes node)
    as (pre & suf & E & Hpre & Hsuf & ->).
  subst nodes.
  apply sorted_by_line_app in Hs. destruct Hs as (_ & Hs2 & _).
  rewrite map_app, in_app_iff in Hin.
  destruct Hin as [Hin|Hin].
  - exfalso. apply in_map_iff in Hin. destruct Hin as (b & Hk & Hb).
    rewrite Forall_forall in Hpre. specialize (Hpre b Hb).
    unfold key in Hk. assert (line b = line node) by congruence. lia.
  - rewrite key_has_match; auto using sorted_tail_above.
Qed.

Lemma add_active_node_sorted (nodes : list Break) (node : Break) :
  sorted_by_line nodes -> sorted_by_line (add_active_node nodes node).
Proof.
  intro Hs.
  destruct (add_active_node_split nodes node)
    as (pre & suf & E & Hpre & Hsuf & ->).
  destruct (has_match suf node); [exact Hs|].
  subst nodes.
  apply sorted_by_line_app in Hs. destruct Hs as (S1 & S2 & C).
  pose proof (sorted_tail_above suf (line node) S2 Hsuf) as Habove.
  apply sorted_by_line_app. repeat split; try assumption.
  intros a b Ha [<-|Hb].
  - rewrite Forall_forall in Hpre. specialize (Hpre a Ha). lia.
  - now apply C.
Qed.

Lemma add_active_node_unique (nodes : list Break) (node : Break) :
  sorted_by_line nodes -> unique_keys nodes ->
  unique_keys (add_active_node nodes node).
Proof.
  unfold unique_keys. intros Hs Hu.
  destruct (add_active_node_split nodes node)
    as (pre & suf & E & Hpre & Hsuf & ->).
  destruct (has_match suf node) eqn:Hm; [exact Hu|].
  subst nodes.
  apply sorted_by_line_app in Hs. destruct Hs as (_ & S2 & _).
  rewrite map_app in *. simpl.
  apply NoDup_Add with (a := key node) (l := map key pre ++ map key suf);
    [apply Add_app|].
  split; [exact Hu|].
  rewrite in_app_iff. intros [Hin|Hin].
  - apply in_map_iff in Hin. destruct Hin as (b & Hk & Hb).
    rewrite Forall_forall in Hpre. specialize (Hpre b Hb).
    unfold key in Hk. assert (line b = line node) by congruence. lia.
  - rewrite key_has_match in Hm; auto using sorted_tail_above.
    discriminate.
Qed.

Lemma add_active_node_incl (nodes : list Break) (node x : Break) :
  In x (add_active_node nodes node) -> In x nodes \/ x = node.
Proof.
  destruct (add_active_node_split nodes node)
    as (pre & suf & E & _ & _ & ->).
  destruct (has_match suf node); [now left|].
  subst nodes. rewrite !in_app_iff. simpl. intuition.
Qed.

Lemma add_active_node_nonempty (nodes : list Break) (node : Break) :
  add_active_node nodes node <> [].
Proof.
  destruct (add_active_node_split nodes node)
    as (pre & suf & E & _ & _ & ->).
  destruct (has_match suf node) eqn:Hm.
  - subst nodes. destruct suf; [discriminate Hm|].
    intro H. apply app_eq_nil in H. destruct H; discriminate.
  - intro H. apply app_eq_nil in H. destruct H; discriminate.
Qed.

(** ** The active list: removal *)

Lemma erase_node_incl (nodes : list Break) (bn x : Break) :
  In x (erase_node nodes bn) -> In x nodes.
Proof.
  induction nodes as [|a rest IH]; simpl; [tauto|].
  destruct (addr a =? addr bn)%nat; simpl; intuition.
Qed.

Lemma erase_node_sorted (nodes : list Break) (bn : Break) :
  sorted_by_line nodes -> sorted_by_line (erase_node nodes bn).
Proof.
  induction nodes as [|a rest IH]; simpl; [tauto|].
  intros (Fa & S).
  destruct (addr a =? addr bn)%nat; simpl; [exact S|].
  split; [|now apply IH].
  rewrite Forall_forall in *. intros b Hb.
  apply Fa. eapply erase_node_incl; eassumption.
Qed.

Lemma erase_node_unique (nodes : list Break) (bn : Break) :
  unique_keys nodes -> unique_keys (erase_node nodes bn).
Proof.
  unfold unique_keys.
  induction nodes as [|a rest IH]; simpl; [tauto|].
  intro Hu. apply NoDup_cons_iff in Hu. destruct Hu as (Hn & Hu).
  destruct (addr a =? addr bn)%nat; simpl; [exact Hu|].
  constructor; [|now apply IH].
  intro Hin. apply Hn.
  apply in_map_iff in Hin. destruct Hin as (b & Hk & Hb).
  apply in_map_iff. exists b. split; [exact Hk|].
  eapply erase_node_incl; eassumption.
Qed.

Lemma erase_node_length (nodes : list Break) (bn : Break) :
  (length nodes <= S (length (erase_node nodes bn)))%nat.
Proof.
  induction nodes as [|a rest IH]; simpl; [lia|].
  destruct (addr a =? addr bn)%nat; simpl; lia.
Qed.

Lemma deactivate_incl (to_deactivate : list Break) :
  forall (nodes : list Break) (x : Break),
    In x (deactivate nodes to_deactivate) -> In x nodes.
Proof.
  induction to_deactivate as [|bn rest IH]; intros nodes x; simpl; [tauto|].
  destruct (length nodes =? 1)%nat; [tauto|].
  intro H. apply IH in H. eapply erase_node_incl; eassumption.
Qed.

Lemma deactivate_sorted (to_deactivate : list Break) :
  forall nodes : list Break,
    sorted_by_line nodes -> sorted_by_line (deactivate nodes to_deactivate).
Proof.
  induction to_deactivate as [|bn rest IH]; intros nodes Hs; simpl; [exact Hs|].
  destruct (length nodes =? 1)%nat; [exact Hs|].
  apply IH. now apply erase_node_sorted.
Qed.

Lemma deactivate_unique (to_deactivate : list Break) :
  forall nodes : list Break,
    unique_keys nodes -> unique_keys (deactivate nodes to_deactivate).
Proof.
  induction to_deactivate as [|bn rest IH]; intros nodes Hu; simpl; [exact Hu|].
  destruct (length nodes =? 1)%nat; [exact Hu|].
  apply IH. now apply erase_node_unique.
Qed.

(** The removal loop never empties the list. *)
Lemma deactivate_nonempty (to_deactivate : list Break) :
  forall nodes : list Break,
    nodes <> [] -> deactivate nodes to_deactivate <> [].
Proof.
  induction to_deactivate as [|bn rest IH]; intros nodes Hne; simpl;
    [exact Hne|].
  destruct (length nodes =? 1)%nat eqn:E; [exact Hne|].
  apply IH. apply Nat.eqb_neq in E.
  pose proof (erase_node_length nodes bn) as Hl.
  destruct nodes as [|a nodes]; [congruence|].
  destruct (erase_node (a :: nodes) bn) eqn:Ee; [|discriminate].
  simpl in *. lia.
Qed.

(** ** The active list: insertion of the new candidates *)

Lemma activate_incl (to_activate : list Break) :
  forall (nodes : list Break) (x : Break),
    In x (activate nodes to_activate) -> In x nodes \/ In x to_activate.
Proof.
  unfold activate.
  induction to_activate as [|n rest IH]; intros nodes x; simpl; [tauto|].
  intro H. apply IH in H. destruct H as [H|H]; [|tauto].
  apply add_active_node_incl in H. intuition.
Qed.

Lemma activate_kept (to_activate : list Break) :
  forall nodes : list Break,
    sorted_by_line nodes /\ unique_keys nodes ->
    sorted_by_line (activate nodes to_activate)
    /\ unique_keys (activate nodes to_activate).
Proof.
  unfold activate.
  induction to_activate as [|n rest IH]; intros nodes (Hs & Hu); simpl;
    [now split|].
  apply IH. split.
  - now apply add_active_node_sorted.
  - now apply add_active_node_unique.
Qed.

Lemma activate_nonempty (to_activate : list Break) :
  forall nodes : list Break,
    nodes <> [] -> activate nodes to_activate <> [].
Proof.
  unfold activate.
  induction to_activate as [|n rest IH]; intros nodes Hne; simpl;
    [exact Hne|].
  apply IH. apply add_active_node_nonempty.
Qed.

(** ** The forward pass *)

Lemma main_loop_app {V : Type} (par : KnuthPlassParagraph V)
    (ll : list Q) (opts : Options) (Bs1 Bs2 : list nat) :
  forall st,
    main_loop par ll opts (Bs1 ++ Bs2) st
    = match main_loop par ll opts Bs1 st with
      | None => None
      | Some st' => main_loop par ll opts Bs2 st'
      end.
Proof.
  induction Bs1 as [|B Bs1 IH]; intro st; simpl; [reflexivity|].
  destruct (process_item par ll opts B st); [apply IH | reflexivity].
Qed.

(** One more iteration of the loop over [B]. *)
Lemma after_items_S {V : Type} (par : KnuthPlassParagraph V)
    (ll : list Q) (opts : Options) (n : nat) :
  after_items par ll opts (S n)
  = match after_items par ll opts n with
    | None => None
    | Some st => process_item par ll opts n st
    end.
Proof.
  unfold after_items. rewrite seq_S, main_loop_app. simpl.
  destruct (main_loop par ll opts (seq 0 n) ([origin], 1%nat)) as [st|];
    [|reflexivity].
  destruct (process_item par ll opts n st); reflexivity.
Qed.

Lemma available_width_defined (ll : list Q) (ln : nat) :
  ll <> [] ->
  exists w,
    (if (ln <? length ll)%nat then nth_error ll ln else back ll) = Some w.
Proof.
  intro Hne.
  destruct (ln <? length ll)%nat eqn:E.
  - apply Nat.ltb_lt in E.
    destruct (nth_error ll ln) as [w|] eqn:En; [now exists w|].
    apply nth_error_None in En. lia.
  - destruct ll as [|x rest]; [congruence|].
    simpl. now eexists.
Qed.

Lemma compute_adjustment_ratio_defined {V : Type}
    (par : KnuthPlassParagraph V) (pos1 pos2 ln : nat) (ll : list Q) :
  ll <> [] ->
  exists r, compute_adjustment_ratio par pos1 pos2 ln ll = Some r.
Proof.
  intro Hne.
  destruct (available_width_defined ll ln Hne) as (w & Hw).
  unfold compute_adjustment_ratio. cbv zeta. rewrite Hw. now eexists.
Qed.

(** What [examine] returns when it creates a candidate. *)
Lemma examine_candidate {V : Type} (par : KnuthPlassParagraph V)
    (ll : list Q) (opts : Options) (B : nat) (A : Break) (fresh : nat)
    (dA : bool) (c : Break) :
  examine par ll opts B A fresh = Some (dA, Some c) ->
  previous c = Some A /\ position c = B /\ line c = (line A + 1)%nat
  /\ compute_adjustment_ratio par (position A) B (line A) ll = Some (ratio c)
  /\ - 1 <= ratio c /\ ratio c <= tolerance opts.
Proof.
  unfold examine.
  destruct (compute_adjustment_ratio par (position A) B (line A) ll)
    as [r|]; [|discriminate].
  cbv zeta.
  destruct (Qle_bool (- 1) r && Qle_bool r (tolerance opts)) eqn:E;
    [|discriminate].
  apply andb_true_iff in E. destruct E as (E1 & E2).
  apply Qle_bool_iff in E1. apply Qle_bool_iff in E2.
  intro H. injection H as _ <-. simpl. repeat split; assumption.
Qed.

(** What [examine] returns when it creates none. *)
Lemma examine_no_candidate {V : Type} (par : KnuthPlassParagraph V)
    (ll : list Q) (opts : Options) (B : nat) (A : Break) (fresh : nat)
    (r : Q) :
  compute_adjustment_ratio par (position A) B (line A) ll = Some r ->
  r < - 1 \/ tolerance opts < r ->
  exists dA, examine par ll opts B A fresh = Some (dA, None).
Proof.
  intros Hr Hout. unfold examine. rewrite Hr. cbv zeta.
  destruct (Qle_bool (- 1) r && Qle_bool r (tolerance opts)) eqn:E;
    [|now eexists].
  apply andb_true_iff in E. destruct E as (E1 & E2).
  apply Qle_bool_iff in E1. apply Qle_bool_iff in E2.
  exfalso. destruct Hout as [H|H].
  - exact (Qlt_not_le _ _ H E1).
  - exact (Qlt_not_le _ _ H E2).
Qed.

Lemma examine_defined {V : Type} (par : KnuthPlassParagraph V)
    (ll : list Q) (opts : Options) (B : nat) (A : Break) (fresh : nat) :
  ll <> [] -> exists res, examine par ll opts B A fresh = Some res.
Proof.
  intro Hne. unfold examine.
  destruct (compute_adjustment_ratio_defined par (position A) B (line A) ll Hne)
    as (r & ->).
  now eexists.
Qed.

Lemma scan_active_defined {V : Type} (par : KnuthPlassParagraph V)
    (ll : list Q) (opts : Options) (B : nat) (nodes : list Break) :
  ll <> [] ->
  forall fresh, exists res, scan_active par ll opts B nodes fresh = Some res.
Proof.
  intro Hne.
  induction nodes as [|A rest IH]; intro fresh; simpl; [now eexists|].
  destruct (examine_defined par ll opts B A fresh Hne) as ((dA & c) & ->).
  destruct (IH (match c with Some _ => S fresh | None => fresh end))
    as (((d & a) & f) & ->).
  now eexists.
Qed.

(** The two working lists: the nodes to deactivate are active nodes, the
    nodes to activate are candidates created from active nodes. *)
Lemma scan_active_lists {V : Type} (par : KnuthPlassParagraph V)
    (ll : list Q) (opts : Options) (B : nat) (nodes : list Break) :
  forall fresh to_deactivate to_activate fresh',
    scan_active par ll opts B nodes fresh
    = Some (to_deactivate, to_activate, fresh') ->
    incl to_deactivate nodes
    /\ Forall (fun c => exists A f dA,
                   In A nodes
                   /\ examine par ll opts B A f = Some (dA, Some c))
              to_activate.
Proof.
  induction nodes as [|A rest IH]; intros fresh d a f'; simpl.
  - intro H. injection H as <- <- <-. split; [apply incl_refl | constructor].
  - destruct (examine par ll opts B A fresh) as [(dA & c)|] eqn:Ex;
      [|discriminate].
    destruct (scan_active par ll opts B rest
                (match c with Some _ => S fresh | None => fresh end))
      as [((d0 & a0) & f0)|] eqn:Es; [|discriminate].
    intro H. injection H as <- <- <-.
    destruct (IH _ _ _ _ Es) as (Hd & Ha).
    split.
    + destruct dA.
      * apply incl_cons; [now left | now apply incl_tl].
      * now apply incl_tl.
    + assert (Ha' : Forall (fun c0 => exists A0 f dA0,
                   In A0 (A :: rest)
                   /\ examine par ll opts B A0 f = Some (dA0, Some c0)) a0).
      { eapply Forall_impl; [|exact Ha]. simpl.
        intros c0 (A0 & f & dA0 & Hin & He).
        exists A0, f, dA0. split; [now right | exact He]. }
      destruct c as [c|]; [|exact Ha'].
      constructor; [|exact Ha'].
      exists A, fresh, dA. split; [now left | exact Ex].
Qed.

(** The active list stays sorted, duplicate-free and non-empty through one
    iteration of the loop over [B]. *)
Lemma process_item_kept {V : Type} (par : KnuthPlassParagraph V)
    (ll : list Q) (opts : Options) (B : nat) (st st' : Frontier) :
  process_item par ll opts B st = Some st' ->
  sorted_by_line (fst st) /\ unique_keys (fst st) /\ fst st <> [] ->
  sorted_by_line (fst st') /\ unique_keys (fst st') /\ fst st' <> [].
Proof.
  unfold process_item. intros H (Hs & Hu & Hne).
  destruct (is_feasible_breakpoint par B).
  - destruct (scan_active par ll opts B (fst st) (snd st))
      as [((d & a) & f)|]; [|discriminate].
    injection H as <-. simpl.
    destruct (activate_kept a (deactivate (fst st) d)) as (Hs' & Hu').
    { split; [now apply deactivate_sorted | now apply deactivate_unique]. }
    repeat split; try assumption.
    apply activate_nonempty. now apply deactivate_nonempty.
  - injection H as <-. repeat split; assumption.
Qed.

Lemma after_items_kept {V : Type} (par : KnuthPlassParagraph V)
    (ll : list Q) (opts : Options) (n : nat) :
  forall st,
    after_items par ll opts n = Some st ->
    sorted_by_line (fst st) /\ unique_keys (fst st) /\ fst st <> [].
Proof.
  induction n as [|n IH]; intros st H.
  - unfold after_items in H. simpl in H. injection H as <-. simpl.
    repeat split.
    + constructor.
    + unfold unique_keys. simpl. constructor; [tauto | constructor].
    + discriminate.
  - rewrite after_items_S in H.
    destruct (after_items par ll opts n) as [st0|]; [|discriminate].
    eapply process_item_kept; [exact H | now apply IH].
Qed.

(** With at least one line length the forward pass is defined. *)
Lemma after_items_defined {V : Type} (par : KnuthPlassParagraph V)
    (ll : list Q) (opts : Options) (n : nat) :
  ll <> [] -> exists st, after_items par ll opts n = Some st.
Proof.
  intro Hne.
  induction n as [|n (st & IH)].
  - now eexists.
  - rewrite after_items_S, IH. unfold process_item.
    destruct (is_feasible_breakpoint par n); [|now eexists].
    destruct (scan_active_defined par ll opts n (fst st) Hne (snd st))
      as (((d & a) & f) & ->).
    now eexists.
Qed.

(** ** Ratios along the chains of predecessors *)

Lemma Break_chain_ind (P : Break -> Prop) :
  (forall a p l f d r, P (mkBreak a p l f d r None)) ->
  (forall a p l f d r B, P B -> P (mkBreak a p l f d r (Some B))) ->
  forall A, P A.
Proof.
  intros H0 H1. fix IH 1.
  intros [a p l f d r [B|]].
  - apply H1. apply IH.
  - apply H0.
Qed.

Lemma ratios_within_step (tol : Q) (c A : Break) :
  previous c = Some A ->
  - 1 <= ratio c -> ratio c <= tol ->
  ratios_within tol A -> ratios_within tol c.
Proof.
  destruct c as [a p l f d r prev]. simpl. intros -> H1 H2 HA.
  repeat split; assumption.
Qed.

Lemma walk_back_ratios (tol : Q) :
  forall A,
    ratios_within tol A ->
    Forall (fun b => - 1 <= ratio b /\ ratio b <= tol) (walk_back A).
Proof.
  induction A as [a p l f d r | a p l f d r B IH] using Break_chain_ind;
    simpl; intro H.
  - constructor.
  - destruct H as (Hr & HB). constructor; [exact Hr | now apply IH].
Qed.

Lemma process_item_ratios {V : Type} (par : KnuthPlassParagraph V)
    (ll : list Q) (opts : Options) (B : nat) (st st' : Frontier) :
  process_item par ll opts B st = Some st' ->
  Forall (ratios_within (tolerance opts)) (fst st) ->
  Forall (ratios_within (tolerance opts)) (fst st').
Proof.
  unfold process_item. intros H Hall.
  destruct (is_feasible_breakpoint par B); [|now injection H as <-].
  destruct (scan_active par ll opts B (fst st) (snd st))
    as [((d & a) & f)|] eqn:Es; [|discriminate].
  injection H as <-. simpl.
  destruct (scan_active_lists par ll opts B (fst st) _ _ _ _ Es) as (_ & Ha).
  rewrite Forall_forall in *. intros x Hx.
  apply activate_incl in Hx. destruct Hx as [Hx|Hx].
  - apply Hall. eapply deactivate_incl; eassumption.
  - destruct (Ha x Hx) as (A & f0 & dA & HA & He).
    apply examine_candidate in He.
    destruct He as (Hp & _ & _ & _ & H1 & H2).
    eapply ratios_within_step; eauto.
Qed.

Lemma after_items_ratios {V : Type} (par : KnuthPlassParagraph V)
    (ll : list Q) (opts : Options) (n : nat) :
  forall st,
    after_items par ll opts n = Some st ->
    Forall (ratios_within (tolerance opts)) (fst st).
Proof.
  induction n as [|n IH]; intros st H.
  - unfold after_items in H. simpl in H. injection H as <-. simpl.
    constructor; [exact I | constructor].
  - rewrite after_items_S in H.
    destruct (after_items par ll opts n) as [st0|]; [|discriminate].
    eapply process_item_ratios; [exact H | now apply IH].
Qed.

(** ** Terminal selection *)

Lemma lowest_demerits_in (nodes : list Break) :
  forall A, lowest_demerits nodes A = A \/ In (lowest_demerits nodes A) nodes.
Proof.
  induction nodes as [|n rest IH]; intro A; simpl; [now left|].
  destruct (IH (if Qltb (demerits n) (demerits A) then n else A)) as [E|Hin].
  - rewrite E. destruct (Qltb (demerits n) (demerits A)); auto.
  - auto.
Qed.

(** The node found with looseness 0 has the fewest demerits. *)
Lemma lowest_demerits_least (nodes : list Break) :
  forall A,
    demerits (lowest_demerits nodes A) <= demerits A
    /\ Forall (fun n => demerits (lowest_demerits nodes A) <= demerits n) nodes.
Proof.
  induction nodes as [|n rest IH]; intro A; simpl.
  - split; [apply Qle_refl | constructor].
  - destruct (IH (if Qltb (demerits n) (demerits A) then n else A))
      as (H1 & H2).
    destruct (Qltb (demerits n) (demerits A)) eqn:E.
    + apply Qltb_lt in E. repeat split.
      * eapply Qle_trans; [exact H1 | now apply Qlt_le_weak].
      * constructor; assumption.
    + apply Qltb_ge in E. repeat split.
      * exact H1.
      * constructor; [|exact H2]. eapply Qle_trans; eassumption.
Qed.

Lemma looseness_loop_in (lo : Q) (A : Break) (nodes : list Break) :
  forall best d b x,
    looseness_loop lo A nodes best d b = Some (Some x) ->
    In x nodes \/ b = Some x.
Proof.
  induction nodes as [|br rest IH]; intros best d b x; simpl.
  - intro H. injection H as ->. now right.
  - destruct ((Qle_bool lo (inject_Z (line_delta br A))
               && (line_delta br A <? best)%Z)
              || ((best <? line_delta br A)%Z
                  || Qltb (inject_Z (line_delta br A)) lo)).
    + destruct (to_unsigned_int (demerits br)); [|discriminate].
      intro H. apply IH in H. destruct H as [H|H]; [auto|].
      injection H as ->. auto.
    + destruct ((line_delta br A =? best)%Z
                && Qltb (demerits br) (inject_Z d)).
      * destruct (to_unsigned_int (demerits br)); [|discriminate].
        intro H. apply IH in H. destruct H as [H|H]; [auto|].
        injection H as ->. auto.
      * intro H. apply IH in H. tauto.
Qed.

Lemma select_terminal_in (opts : Options) (first : Break)
    (nodes : list Break) (A : Break) :
  In first nodes ->
  select_terminal opts first nodes = Some A -> In A nodes.
Proof.
  unfold select_terminal. intros Hf.
  destruct (negb (Qeq_bool (looseness opts) 0)).
  - destruct (looseness_loop (looseness opts)
                (lowest_demerits nodes first) nodes 0 INF None)
      as [b|] eqn:E; [|discriminate].
    intros ->. apply looseness_loop_in in E.
    destruct E as [E|E]; [exact E | discriminate].
  - intro H. injection H as <-.
    destruct (lowest_demerits_in nodes first) as [E|E];
      [now rewrite E | exact E].
Qed.

(** ** Claims about the forward pass *)

(** C8.  At every point of the forward pass (at the head of the loop over
    [B] and after it, after each removal, after each call of
    [add_active_node]) no two active nodes share the same
    [(line, fitness_class)]; and [add_active_node], called there with a
    node whose [(line, fitness_class)] already occurs, leaves the active
    list unchanged. *)
Theorem frontier_keys_unique {V : Type} (par : KnuthPlassParagraph V)
    (line_lengths : list Q) (opts : Options) (active_nodes : list Break) :
  frontier_point par line_lengths opts active_nodes ->
  unique_keys active_nodes
  /\ (forall node,
        In (key node) (map key active_nodes) ->
        add_active_node active_nodes node = active_nodes).
Proof.
  intro Hp.
  assert (H : sorted_by_line active_nodes /\ unique_keys active_nodes).
  { destruct Hp as [n st Hn Hst | B st d a f i HB Hst Hf Hs
                    | B st d a f i HB Hst Hf Hs];
      destruct (after_items_kept par line_lengths opts _ _ Hst)
        as (Hs0 & Hu0 & _).
    - now split.
    - split; [now apply deactivate_sorted | now apply deactivate_unique].
    - apply activate_kept.
      split; [now apply deactivate_sorted | now apply deactivate_unique]. }
  destruct H as (Hsorted & Hunique).
  split; [exact Hunique|].
  intros node Hin. now apply add_active_node_drops.
Qed.

Lemma frontier_keys_unique_witness :
  unique_keys two_lines_frontier
  /\ (forall node,
        In (key node) (map key two_lines_frontier) ->
        add_active_node two_lines_frontier node = two_lines_frontier).
Proof.
  apply (frontier_keys_unique two_lines_forced [10] default_options).
  apply (at_loop_head two_lines_forced [10] default_options 5
           (two_lines_frontier, 4%nat)).
  - vm_compute. lia.
  - vm_compute. reflexivity.
Defined.

(** C7.  Every break of a returned break list has its ratio in
    [[-1, tolerance]]; this holds for every input, in particular for those
    that end with the standard paragraph end. *)
Theorem returned_ratios_within_tolerance {V : Type}
    (par : KnuthPlassParagraph V) (line_lengths : list Q) (opts : Options)
    (breaks : list Break) :
  calc_knuth_plass_breaks par line_lengths opts = Returned breaks ->
  Forall (fun b => - 1 <= ratio b /\ ratio b <= tolerance opts) breaks.
Proof.
  unfold calc_knuth_plass_breaks, forward_pass.
  destruct (after_items par line_lengths opts (length (type par)))
    as [(active & fresh)|] eqn:Ef; [|discriminate].
  pose proof (after_items_ratios par line_lengths opts _ _ Ef) as Hall.
  simpl in Hall.
  destruct active as [|first rest]; [discriminate|].
  destruct (select_terminal opts first (first :: rest)) as [A|] eqn:Es;
    [|discriminate].
  intro H. injection H as <-.
  apply Forall_rev. apply walk_back_ratios.
  rewrite Forall_forall in Hall. apply Hall.
  eapply select_terminal_in; [|exact Es]. now left.
Qed.

Lemma returned_ratios_within_tolerance_witness :
  Forall (fun b => - 1 <= ratio b /\ ratio b <= tolerance default_options)
         three_words_breaks.
Proof.
  apply (returned_ratios_within_tolerance three_words [9] default_options).
  vm_compute. reflexivity.
Defined.

(** C3, evaluated on [two_lines_forced] with lines of length 10.  Item 4 is
    a forced break ([penalty = -INF]) and a feasible breakpoint.  Before it
    is processed three nodes are active; while it is processed no node is
    put on the removal list (the test of the source is [penalty[B] > INF])
    and one candidate is created; afterwards the same three nodes are still
    active, none of them at the forced break. *)
Theorem forced_break_keeps_active_nodes :
  exists n1 n2 candidate,
    after_items two_lines_forced [10] default_options 4
    = Some ([origin; n1; n2], 3%nat)
    /\ nth 4 (type two_lines_forced) BOX = PENALTY
    /\ nth 4 (penalty two_lines_forced) 0 = - INFq
    /\ is_feasible_breakpoint two_lines_forced 4 = true
    /\ scan_active two_lines_forced [10] default_options 4
         [origin; n1; n2] 3
       = Some ([], [candidate], 4%nat)
    /\ position candidate = 4%nat
    /\ after_items two_lines_forced [10] default_options 5
       = Some ([origin; n1; n2], 4%nat)
    /\ map position [origin; n1; n2] = [0; 1; 3]%nat.
Proof.
  do 3 eexists.
  split; [vm_compute; reflexivity|].
  repeat split; vm_compute; reflexivity.
Qed.

(** The removal list only ever holds nodes whose line cannot shrink enough:
    at a feasible breakpoint the second disjunct of the removal test is
    false. *)
Lemma feasible_penalty_not_above_INF {V : Type}
    (par : KnuthPlassParagraph V) (B : nat) :
  is_feasible_breakpoint par B = true ->
  SpecType_eqb (nth B (type par) BOX) PENALTY = true ->
  Qltb INFq (nth B (penalty par) 0) = false.
Proof.
  unfold is_feasible_breakpoint. intros Hf Hp. rewrite Hp in Hf. simpl in Hf.
  destruct (Qltb (nth B (penalty par) 0) INFq) eqn:E.
  - apply Qltb_lt in E. apply Qltb_ge. now apply Qlt_le_weak.
  - destruct (nth B (type par) BOX); try discriminate.
    rewrite andb_false_r in Hf. discriminate.
Qed.

(** ** Claims about the selection *)

(** With looseness 0 the selected node is an active node with the fewest
    demerits. *)
Lemma select_terminal_least (opts : Options) (first : Break)
    (rest : list Break) :
  looseness opts == 0 ->
  exists A,
    select_terminal opts first (first :: rest) = Some A
    /\ In A (first :: rest)
    /\ Forall (fun n => demerits A <= demerits n) (first :: rest).
Proof.
  intro H0. unfold select_terminal.
  apply Qeq_bool_iff in H0. rewrite H0. simpl negb. cbv iota.
  eexists. split; [reflexivity|]. split.
  - destruct (lowest_demerits_in (first :: rest) first) as [E|E];
      [rewrite E; now left | exact E].
  - apply lowest_demerits_least.
Qed.

(** C4, evaluated.  On [two_lines_forced] with lines of length 10 and
    looseness 1 the active list holds the origin (line 0, the fewest
    demerits), [n1] (line 1) and [n2] (line 2).  The node whose line
    exceeds the line of the best node by exactly the looseness is [n1]; the
    loop of the source ends on [n2], two lines away.  On [costly_breaks]
    with looseness -1 the single survivor has demerits 12501, above the
    initial [d = INF], so [b] stays null and the selection yields no node:
    the chain walk dereferences a null pointer. *)
Theorem looseness_selection_diverges :
  (exists n1 n2,
      forward_pass two_lines_forced [10] (with_looseness 1)
      = Some ([origin; n1; n2], 4%nat)
      /\ lowest_demerits [origin; n1; n2] origin = origin
      /\ line_delta n1 origin = 1%Z
      /\ line_delta n2 origin = 2%Z
      /\ select_terminal (with_looseness 1) origin [origin; n1; n2] = Some n2)
  /\ (exists n,
      forward_pass costly_breaks [10] (with_looseness (- (1)))
      = Some ([n], 2%nat)
      /\ demerits n == 12501
      /\ select_terminal (with_looseness (- (1))) n [n] = None
      /\ calc_knuth_plass_breaks costly_breaks [10] (with_looseness (- (1)))
         = Undefined).
Proof.
  split.
  - do 2 eexists. split; [vm_compute; reflexivity|].
    repeat split; vm_compute; reflexivity.
  - eexists. split; [vm_compute; reflexivity|].
    repeat split; vm_compute; reflexivity.
Qed.

(** C5, evaluated on [three_words] with lines of length 9 (the paragraph
    ends with the standard paragraph end).  The first returned break is at
    item 3 with ratio -1: its line is made of the items 0, 1, 2, of natural
    width 10 and shrink 1.  Set with [r_width] the line is 11 wide, not 9:
    for a negative ratio [r_width] subtracts [ratio * shrink], which
    widens the glue from 2 to 3.  With the set width of the claim the line
    is 9 wide. *)
Theorem negative_ratio_line_not_set_to_length :
  exists b1 b2,
    calc_knuth_plass_breaks three_words [9] default_options
    = Returned [b1; b2]
    /\ position b1 = 3%nat
    /\ ratio b1 == - (1)
    /\ r_width three_words 1 (ratio b1) == 3
    /\ line_set_width three_words (r_width three_words)
         0 (position b1) (ratio b1) == 11
    /\ reference_set_width three_words 1 (ratio b1) == 1
    /\ line_set_width three_words (reference_set_width three_words)
         0 (position b1) (ratio b1) == 9.
Proof.
  do 2 eexists. split; [vm_compute; reflexivity|].
  repeat split; vm_compute; reflexivity.
Qed.

(** ** Claims about failures *)

(** While no line that starts at the origin is feasible the origin stays
    the only active node. *)
Lemma main_loop_origin_only {V : Type} (par : KnuthPlassParagraph V)
    (ll : list Q) (opts : Options) (Bs : list nat) :
  (forall B, In B Bs -> is_feasible_breakpoint par B = true ->
             exists dA, examine par ll opts B origin 1 = Some (dA, None)) ->
  main_loop par ll opts Bs ([origin], 1%nat) = Some ([origin], 1%nat).
Proof.
  induction Bs as [|B Bs IH]; intro H; simpl; [reflexivity|].
  assert (Hstep : process_item par ll opts B ([origin], 1%nat)
                  = Some ([origin], 1%nat)).
  { unfold process_item.
    destruct (is_feasible_breakpoint par B) eqn:Ef; [|reflexivity].
    destruct (H B (or_introl eq_refl) Ef) as (dA & He).
    simpl. rewrite He. destruct dA; reflexivity. }
  rewrite Hstep. apply IH.
  intros B' HB'. apply H. now right.
Qed.

(** C6, as the source has it.  The removal loop stops when one active node
    is left, so the active list is never empty at selection time and no
    failure is reported: with at least one line length and looseness 0
    every call returns a break list.  When no line that starts at the
    origin is feasible (every such ratio is below -1 or above the
    tolerance), the origin is the only survivor and the returned list is
    empty. *)
Theorem no_feasible_break_returns_empty_list {V : Type}
    (par : KnuthPlassParagraph V) (line_lengths : list Q) (opts : Options) :
  line_lengths <> [] ->
  looseness opts == 0 ->
  (exists active_nodes fresh,
      forward_pass par line_lengths opts = Some (active_nodes, fresh)
      /\ active_nodes <> [])
  /\ (exists breaks,
      calc_knuth_plass_breaks par line_lengths opts = Returned breaks)
  /\ ((forall B r,
          (B < length (type par))%nat ->
          is_feasible_breakpoint par B = true ->
          compute_adjustment_ratio par 0 B 0 line_lengths = Some r ->
          r < - 1 \/ tolerance opts < r) ->
      forward_pass par line_lengths opts = Some ([origin], 1%nat)
      /\ calc_knuth_plass_breaks par line_lengths opts = Returned []).
Proof.
  intros Hne H0.
  destruct (after_items_defined par line_lengths opts (length (type par)) Hne)
    as ((active & fresh) & Ef).
  destruct (after_items_kept par line_lengths opts _ _ Ef) as (_ & _ & Hn).
  simpl in Hn.
  split; [|split].
  - exists active, fresh. now split.
  - unfold calc_knuth_plass_breaks, forward_pass. rewrite Ef.
    destruct active as [|first rest]; [congruence|].
    destruct (select_terminal_least opts first rest H0) as (A & -> & _).
    now eexists.
  - intro Hinf.
    assert (Hf : forward_pass par line_lengths opts
                 = Some ([origin], 1%nat)).
    { unfold forward_pass, after_items. apply main_loop_origin_only.
      intros B HB Hfeas. apply in_seq in HB.
      destruct (compute_adjustment_ratio_defined par 0 B 0 line_lengths Hne)
        as (r & Hr).
      apply (examine_no_candidate par line_lengths opts B origin 1 r).
      - exact Hr.
      - apply (Hinf B r); [lia | exact Hfeas | exact Hr]. }
    split; [exact Hf|].
    unfold calc_knuth_plass_breaks. rewrite Hf.
    unfold select_terminal.
    apply Qeq_bool_iff in H0. rewrite H0. reflexivity.
Qed.

Lemma no_feasible_break_returns_empty_list_witness :
  forward_pass wide_words [3] default_options = Some ([origin], 1%nat)
  /\ calc_knuth_plass_breaks wide_words [3] default_options = Returned [].
Proof.
  destruct (no_feasible_break_returns_empty_list
              wide_words [3] default_options) as (_ & _ & H).
  - discriminate.
  - reflexivity.
  - apply H. intros B r HB Hf Hr.
    destruct B as [|[|[|[|[|[|B]]]]]];
      try (vm_compute in Hf; discriminate Hf);
      try (vm_compute in HB; lia);
      vm_compute in Hr; injection Hr as <-;
      first [left; reflexivity | right; reflexivity].
Defined.

(** C6 as stated fails on [wide_words] (two words of width 10, lines of
    length 3, default tolerance): no break node survives the forward pass,
    and the call returns the empty break list instead of failing. *)
Lemma no_feasible_break_counterexample :
  (forall B r,
      (B < length (type wide_words))%nat ->
      is_feasible_breakpoint wide_words B = true ->
      compute_adjustment_ratio wide_words 0 B 0 [3] = Some r ->
      ~ (- 1 <= r /\ r <= tolerance default_options))
  /\ exists breaks,
      calc_knuth_plass_breaks wide_words [3] default_options
      = Returned breaks.
Proof.
  split.
  - intros B r HB Hf Hr.
    destruct B as [|[|[|[|[|[|B]]]]]];
      try (vm_compute in Hf; discriminate Hf);
      try (vm_compute in HB; lia);
      vm_compute in Hr; injection Hr as <-;
      intros (H1 & H2); vm_compute in H1, H2; tauto.
  - exists []. vm_compute. reflexivity.
Qed.

Lemma main_loop_no_breakpoint {V : Type} (par : KnuthPlassParagraph V)
    (ll : list Q) (opts : Options) (Bs : list nat) (st : Frontier) :
  (forall B, In B Bs -> is_feasible_breakpoint par B = false) ->
  main_loop par ll opts Bs st = Some st.
Proof.
  induction Bs as [|B Bs IH]; intro H; simpl; [reflexivity|].
  unfold process_item. rewrite (H B (or_introl eq_refl)).
  apply IH. intros B' HB'. apply H. now right.
Qed.

(** C9, as the source has it.  There is no test of [line_lengths]: when it
    is empty and no item of the paragraph is a feasible breakpoint,
    [line_lengths] is never consulted and the call (looseness 0) returns
    the empty break list. *)
Theorem empty_line_lengths_not_reported {V : Type}
    (par : KnuthPlassParagraph V) (opts : Options) :
  looseness opts == 0 ->
  (forall B, (B < length (type par))%nat ->
             is_feasible_breakpoint par B = false) ->
  calc_knuth_plass_breaks par [] opts = Returned [].
Proof.
  intros H0 Hnone.
  unfold calc_knuth_plass_breaks, forward_pass, after_items.
  rewrite main_loop_no_breakpoint.
  - unfold select_terminal. apply Qeq_bool_iff in H0. rewrite H0. reflexivity.
  - intros B HB. apply in_seq in HB. apply Hnone. lia.
Qed.

Lemma empty_line_lengths_not_reported_witness :
  calc_knuth_plass_breaks two_boxes [] default_options = Returned [].
Proof.
  apply (empty_line_lengths_not_reported two_boxes default_options).
  - reflexivity.
  - intros B HB.
    destruct B as [|[|B]]; [reflexivity | reflexivity |].
    vm_compute in HB. lia.
Defined.

(** C9 as stated fails on [one_box] with no line length: the call returns
    a break list. *)
Lemma empty_line_lengths_counterexample :
  calc_knuth_plass_breaks one_box [] default_options = Returned [].
Proof.
  vm_compute. reflexivity.
Qed.

(** With no line length and a feasible breakpoint in the paragraph the
    source evaluates [back()] of the empty vector. *)
Lemma main_loop_empty_lengths_undefined {V : Type}
    (par : KnuthPlassParagraph V) (opts : Options) (Bs : list nat) :
  (exists B, In B Bs /\ is_feasible_breakpoint par B = true) ->
  main_loop par [] opts Bs ([origin], 1%nat) = None.
Proof.
  induction Bs as [|B Bs IH]; intros (B0 & Hin & Hf); [destruct Hin|].
  simpl. unfold process_item.
  destruct (is_feasible_breakpoint par B) eqn:E.
  - reflexivity.
  - apply IH. exists B0. split; [|exact Hf].
    destruct Hin as [->|Hin]; [congruence | exact Hin].
Qed.

Lemma empty_line_lengths_undefined {V : Type}
    (par : KnuthPlassParagraph V) (opts : Options) (B : nat) :
  (B < length (type par))%nat ->
  is_feasible_breakpoint par B = true ->
  calc_knuth_plass_breaks par [] opts = Undefined.
Proof.
  intros HB Hf.
  unfold calc_knuth_plass_breaks, forward_pass, after_items.
  rewrite main_loop_empty_lengths_undefined; [reflexivity|].
  exists B. split; [|exact Hf]. apply in_seq. lia.
Qed.

(** * Further properties of the source *)

(** ** Prefix sums measure segments *)

Lemma fold_left_Qplus_shift (l : list Q) :
  forall acc, fold_left Qplus l acc == acc + fold_left Qplus l 0.
Proof.
  induction l as [|x l IH]; intro acc; simpl.
  - ring.
  - rewrite (IH (acc + x)), (IH (0 + x)). ring.
Qed.

Lemma populate_length (v : list Q) (idx : list nat) :
  forall acc, length (populate v idx acc) = length idx.
Proof.
  induction idx as [|i idx IH]; intro acc; simpl; [reflexivity|].
  now rewrite IH.
Qed.

Lemma populate_segment (v : list Q) (m a b : nat) :
  (a <= b)%nat -> (b < m)%nat ->
  nth b (populate v (seq 0 m) 0) 0 - nth a (populate v (seq 0 m) 0) 0
  == segment_sum v a b.
Proof.
  intros Hab Hb. unfold segment_sum.
  rewrite !populate_nth by lia.
  replace b with (a + (b - a))%nat at 1 by lia.
  rewrite seq_app, map_app, fold_left_app. simpl.
  rewrite fold_left_Qplus_shift. ring.
Qed.



(** ** The adjustment ratio *)

Lemma compute_adjustment_ratio_unfold {V : Type}
    (par : KnuthPlassParagraph V) (pos1 pos2 ln : nat) (ll : list Q) :
  compute_adjustment_ratio par pos1 pos2 ln ll
  = match available_width ll ln with
    | None => None
    | Some w =>
      Some
        (if Qltb (ideal_width par pos1 pos2) w then
           if Qltb 0 (nth pos2 (sum_stretch par) 0
                      - nth pos1 (sum_stretch par) 0)
           then (w - ideal_width par pos1 pos2)
                / (nth pos2 (sum_stretch par) 0
                   - nth pos1 (sum_stretch par) 0)
           else INFq
         else if Qltb w (ideal_width par pos1 pos2) then
           if Qltb 0 (nth pos2 (sum_shrink par) 0
                      - nth pos1 (sum_shrink par) 0)
           then (w - ideal_width par pos1 pos2)
                / (nth pos2 (sum_shrink par) 0
                   - nth pos1 (sum_shrink par) 0)
           else INFq
         else 0)
    end.
Proof.
  reflexivity.
Qed.

Lemma last_cons_default (rest : list Q) :
  forall x y, last (y :: rest) x = last rest y.
Proof.
  induction rest as [|z r IH]; intros x y; [reflexivity|].
  change (last (y :: z :: r) x) with (last (z :: r) x).
  now rewrite (IH x z), (IH y z).
Qed.

Lemma back_is_last_entry (ll : list Q) :
  ll <> [] -> back ll = nth_error ll (length ll - 1).
Proof.
  destruct ll as [|x rest]; [congruence|]. intros _.
  simpl length. rewrite Nat.sub_succ, Nat.sub_0_r. unfold back.
  revert x. induction rest as [|y rest IH]; intro x; [reflexivity|].
  rewrite last_cons_default. exact (IH y).
Qed.

(** X2.  The last line length repeats: for a line number at or beyond the
    size of a non-empty [line_lengths], the ratio is the one computed for
    the last line of the schedule. *)
Theorem last_line_length_repeats {V : Type}
    (par : KnuthPlassParagraph V) (pos1 pos2 ln : nat) (ll : list Q) :
  ll <> [] -> (length ll <= ln)%nat ->
  compute_adjustment_ratio par pos1 pos2 ln ll
  = compute_adjustment_ratio par pos1 pos2 (length ll - 1) ll.
Proof.
  intros Hne Hln.
  rewrite !compute_adjustment_ratio_unfold.
  assert (E : available_width ll ln = available_width ll (length ll - 1)).
  { unfold available_width.
    destruct (ln <? length ll)%nat eqn:E1; [apply Nat.ltb_lt in E1; lia|].
    destruct (length ll - 1 <? length ll)%nat eqn:E2.
    - now apply back_is_last_entry.
    - apply Nat.ltb_ge in E2. destruct ll; [congruence | simpl in E2; lia]. }
  now rewrite E.
Qed.

Lemma last_line_length_repeats_witness :
  compute_adjustment_ratio three_words 0 3 7 [20; 9]
  = compute_adjustment_ratio three_words 0 3 (length [20; 9] - 1) [20; 9].
Proof.
  apply (last_line_length_repeats three_words 0 3 7 [20; 9]).
  - discriminate.
  - simpl. lia.
Defined.

Lemma INFq_positive : 0 < INFq.
Proof. reflexivity. Qed.

Lemma quotient_times_divisor (x z : Q) : 0 < z -> (x / z) * z == x.
Proof.
  intro Hz. rewrite Qmult_comm. apply Qmult_div_r.
  intro E. rewrite E in Hz. exact (Qlt_irrefl _ Hz).
Qed.

Lemma quotient_sign (x z : Q) :
  0 < z -> (0 < x -> 0 < x / z) /\ (x < 0 -> x / z < 0).
Proof.
  intro Hz. split; intro Hx.
  - apply Qlt_shift_div_l; [exact Hz | lra].
  - apply Qlt_shift_div_r; [exact Hz | lra].
Qed.



(** ** Lines with a non-negative ratio are set to the available width *)

Lemma set_sum_linear (w y : list Q) (r : Q) (l : list nat) :
  fold_left Qplus (map (fun k => nth k w 0 + r * nth k y 0) l) 0
  == fold_left Qplus (map (fun k => nth k w 0) l) 0
     + r * fold_left Qplus (map (fun k => nth k y 0) l) 0.
Proof.
  induction l as [|k l IH]; simpl.
  - ring.
  - rewrite (fold_left_Qplus_shift _ (0 + (nth k w 0 + r * nth k y 0))),
            (fold_left_Qplus_shift _ (0 + nth k w 0)),
            (fold_left_Qplus_shift _ (0 + nth k y 0)), IH.
    ring.
Qed.

Lemma r_width_stretches {V : Type} (par : KnuthPlassParagraph V)
    (r : Q) (l : list nat) :
  0 <= r ->
  map (fun k => r_width par k r) l
  = map (fun k => nth k (width par) 0 + r * nth k (stretch par) 0) l.
Proof.
  intro Hr. apply map_ext. intro k. unfold r_width.
  destruct (Qltb r 0) eqn:E; [|reflexivity].
  apply Qltb_lt in E. lra.
Qed.

(** X4.  In exact arithmetic, a line whose natural width does not exceed
    the available width and which, when shorter, has stretch, is set to
    the available width: the widths [r_width] gives the items [a .. b-1]
    at the computed ratio, plus the width of the penalty at [b] if the
    break is one, add up to the line length used for the ratio. *)
Theorem stretched_line_fills_available_width {V : Type}
    (par : KnuthPlassParagraph V) (a b ln : nat) (ll : list Q) (w r : Q) :
  (a <= b)%nat -> (b < length (type par))%nat ->
  available_width ll ln = Some w ->
  compute_adjustment_ratio par a b ln ll = Some r ->
  ideal_width par a b <= w ->
  (ideal_width par a b < w ->
   0 < nth b (sum_stretch par) 0 - nth a (sum_stretch par) 0) ->
  line_set_width par (r_width par) a b r == w.
Proof.
  intros Hab Hb Hw Hc Hle Hy.
  pose proof (populate_segment (width par) _ a b Hab Hb) as Ew.
  pose proof (populate_segment (stretch par) _ a b Hab Hb) as Ey.
  fold (sum_width par) in Ew. fold (sum_stretch par) in Ey.
  rewrite compute_adjustment_ratio_unfold, Hw in Hc. injection Hc as Hr.
  unfold segment_sum in Ew, Ey.
  assert (Hshape :
    0 <= r
    /\ r * (nth b (sum_stretch par) 0 - nth a (sum_stretch par) 0)
       == w - ideal_width par a b).
  { destruct (Qltb (ideal_width par a b) w) eqn:E1.
    - apply Qltb_lt in E1. specialize (Hy E1).
      apply Qltb_lt in Hy as Hyb. rewrite Hyb in Hr. subst r.
      split.
      + apply Qlt_le_weak. apply (quotient_sign _ _ Hy). lra.
      + now apply quotient_times_divisor.
    - apply Qltb_ge in E1.
      assert (E2 : Qltb w (ideal_width par a b) = false) by now apply Qltb_ge.
      rewrite E2 in Hr. subst r. split; lra. }
  destruct Hshape as (Hr0 & Hprod).
  unfold line_set_width. rewrite (r_width_stretches par r _ Hr0).
  rewrite set_sum_linear, <- Ew, <- Ey.
  unfold ideal_width in Hprod. cbv zeta in Hprod.
  destruct (SpecType_eqb (nth b (type par) BOX) PENALTY); lra.
Qed.

Lemma stretched_line_fills_available_width_witness :
  line_set_width three_words (r_width three_words) 3 7 (3 # 10001) == 9.
Proof.
  apply (stretched_line_fills_available_width three_words 3 7 1 [9]).
  - lia.
  - vm_compute. lia.
  - reflexivity.
  - vm_compute. reflexivity.
  - vm_compute. discriminate.
  - intros _. vm_compute. reflexivity.
Defined.

(** ** Insertion into the active list *)

(** X5.  [add_active_node] never removes a node, and a node whose
    [(line, fitness_class)] is not yet present is inserted once, after the
    nodes with a smaller line and before all others, which keep their
    order. *)
Theorem add_active_node_inserts_new_key (nodes : list Break) (node : Break) :
  ~ In (key node) (map key nodes) ->
  (forall x, In x nodes -> In x (add_active_node nodes node))
  /\ exists pre suf,
      nodes = pre ++ suf
      /\ add_active_node nodes node = pre ++ node :: suf
      /\ Forall (fun a => (line a < line node)%nat) pre
      /\ match suf with [] => True | a :: _ => (line node <= line a)%nat end.
Proof.
  intro Hnew.
  destruct (add_active_node_split nodes node)
    as (pre & suf & E & Hpre & Hsuf & Hadd).
  assert (Hm : has_match suf node = false).
  { destruct (has_match suf node) eqn:Hm; [|reflexivity].
    exfalso. apply Hnew. subst nodes. rewrite map_app, in_app_iff.
    right. now apply has_match_key. }
  rewrite Hm in Hadd. split.
  - intros x Hx. rewrite Hadd. subst nodes.
    rewrite in_app_iff in *. simpl. tauto.
  - exists pre, suf. repeat split; assumption.
Qed.

Lemma add_active_node_inserts_new_key_witness :
  (forall x, In x two_lines_frontier ->
             In x (add_active_node two_lines_frontier
                     (mkBreak 9 4 1 2 1 1 (Some origin))))
  /\ exists pre suf,
      two_lines_frontier = pre ++ suf
      /\ add_active_node two_lines_frontier (mkBreak 9 4 1 2 1 1 (Some origin))
         = pre ++ mkBreak 9 4 1 2 1 1 (Some origin) :: suf
      /\ Forall (fun a => (line a < 1)%nat) pre
      /\ match suf with [] => True | a :: _ => (1 <= line a)%nat end.
Proof.
  apply (add_active_node_inserts_new_key two_lines_frontier
           (mkBreak 9 4 1 2 1 1 (Some origin))).
  vm_compute. intros [H|[H|[H|[]]]]; discriminate H.
Defined.

(** X6.  At every point of the forward pass the active list is sorted by
    ascending line number and holds at least one node. *)
Theorem frontier_sorted_and_nonempty {V : Type} (par : KnuthPlassParagraph V)
    (line_lengths : list Q) (opts : Options) (active_nodes : list Break) :
  frontier_point par line_lengths opts active_nodes ->
  sorted_by_line active_nodes /\ active_nodes <> [].
Proof.
  intro Hp.
  destruct Hp as [n st Hn Hst | B st d a f i HB Hst Hf Hs
                  | B st d a f i HB Hst Hf Hs];
    destruct (after_items_kept par line_lengths opts _ _ Hst)
      as (Hs0 & Hu0 & Hne0).
  - now split.
  - split; [now apply deactivate_sorted | now apply deactivate_nonempty].
  - split.
    + apply activate_kept.
      split; [now apply deactivate_sorted | now apply deactivate_unique].
    + apply activate_nonempty. now apply deactivate_nonempty.
Qed.

Lemma frontier_sorted_and_nonempty_witness :
  sorted_by_line two_lines_frontier /\ two_lines_frontier <> [].
Proof.
  apply (frontier_sorted_and_nonempty two_lines_forced [10] default_options).
  apply (at_loop_head two_lines_forced [10] default_options 5
           (two_lines_frontier, 4%nat)).
  - vm_compute. lia.
  - vm_compute. reflexivity.
Defined.

(** ** The history of the active nodes *)

Lemma examine_fields {V : Type} (par : KnuthPlassParagraph V)
    (ll : list Q) (opts : Options) (B : nat) (A : Break) (fresh : nat)
    (dA : bool) (c : Break) :
  examine par ll opts B A fresh = Some (dA, Some c) ->
  addr c = fresh /\ fitness_class c = classify (ratio c).
Proof.
  unfold examine.
  destruct (compute_adjustment_ratio par (position A) B (line A) ll)
    as [r|]; [|discriminate].
  cbv zeta.
  destruct (Qle_bool (- 1) r && Qle_bool r (tolerance opts));
    [|discriminate].
  intro H. injection H as _ <-. simpl. now split.
Qed.

(** The two working lists, with the addresses of the candidates and the
    reason for a removal. *)
Lemma scan_active_built {V : Type} (par : KnuthPlassParagraph V)
    (ll : list Q) (opts : Options) (B : nat) (nodes : list Break) :
  forall fresh to_deactivate to_activate fresh',
    scan_active par ll opts B nodes fresh
    = Some (to_deactivate, to_activate, fresh') ->
    (fresh <= fresh')%nat
    /\ Forall (fun c => exists A dA,
                   In A nodes /\ (fresh <= addr c)%nat
                   /\ examine par ll opts B A (addr c) = Some (dA, Some c))
              to_activate
    /\ Forall (fun bn => In bn nodes
                   /\ exists f c, examine par ll opts B bn f = Some (true, c))
              to_deactivate.
Proof.
  induction nodes as [|A rest IH]; intros fresh d a f'; simpl.
  - intro H. injection H as <- <- <-. repeat split; [lia | constructor ..].
  - destruct (examine par ll opts B A fresh) as [(dA & c)|] eqn:Ex;
      [|discriminate].
    destruct (scan_active par ll opts B rest
                (match c with Some _ => S fresh | None => fresh end))
      as [((d0 & a0) & f0)|] eqn:Es; [|discriminate].
    intro H. injection H as <- <- <-.
    destruct (IH _ _ _ _ Es) as (Hf & Ha & Hd).
    assert (Hstep : (fresh <= match c with Some _ => S fresh | None => fresh end)%nat)
      by (destruct c; lia).
    split; [lia|]. split.
    + assert (Ha' : Forall (fun c0 => exists A0 dA0,
                   In A0 (A :: rest) /\ (fresh <= addr c0)%nat
                   /\ examine par ll opts B A0 (addr c0) = Some (dA0, Some c0))
                 a0).
      { eapply Forall_impl; [|exact Ha]. simpl.
        intros c0 (A0 & dA0 & Hin & Hge & He).
        exists A0, dA0. repeat split; [now right | lia | exact He]. }
      destruct c as [c|]; [|exact Ha'].
      constructor; [|exact Ha'].
      destruct (examine_fields _ _ _ _ _ _ _ _ Ex) as (Hc & _).
      exists A, dA. rewrite Hc. repeat split; [now left | lia | exact Ex].
    + assert (Hd' : Forall (fun bn => In bn (A :: rest)
                   /\ exists f c0, examine par ll opts B bn f = Some (true, c0))
                 d0).
      { eapply Forall_impl; [|exact Hd]. simpl.
        intros bn (Hin & He). split; [now right | exact He]. }
      destruct dA; [|exact Hd'].
      constructor; [|exact Hd'].
      split; [now left | now exists fresh, c].
Qed.

Lemma built_by_step {V : Type} (par : KnuthPlassParagraph V)
    (ll : list Q) (opts : Options) (c A : Break) (dA : bool) :
  previous c = Some A ->
  (position c < length (type par))%nat ->
  is_feasible_breakpoint par (position c) = true ->
  previous A = None \/ (position A < position c)%nat ->
  (1 <= addr c)%nat ->
  examine par ll opts (position c) A (addr c) = Some (dA, Some c) ->
  built_by par ll opts A ->
  built_by par ll opts c.
Proof.
  destruct c as [a p l f d r prev]. simpl.
  intros -> H1 H2 H3 H4 H5 H6.
  repeat split; try assumption. now exists dA.
Qed.

Lemma built_by_unfold {V : Type} (par : KnuthPlassParagraph V)
    (ll : list Q) (opts : Options) (c : Break) :
  built_by par ll opts c ->
  match previous c with
  | None => c = origin
  | Some A =>
    ((position c < length (type par))%nat
     /\ is_feasible_breakpoint par (position c) = true
     /\ (previous A = None \/ (position A < position c)%nat)
     /\ (1 <= addr c)%nat
     /\ exists dA,
         examine par ll opts (position c) A (addr c) = Some (dA, Some c))
    /\ built_by par ll opts A
  end.
Proof.
  destruct c as [a p l f d r [A|]]; simpl; tauto.
Qed.

(** Every active node is the origin or was built from an active node at a
    feasible breakpoint already passed. *)
Lemma process_item_built {V : Type} (par : KnuthPlassParagraph V)
    (ll : list Q) (opts : Options) (B : nat) (st st' : Frontier) :
  (B < length (type par))%nat ->
  process_item par ll opts B st = Some st' ->
  (1 <= snd st)%nat
  /\ Forall (fun A => built_by par ll opts A
                      /\ (previous A = None \/ (position A < B)%nat))
            (fst st) ->
  (1 <= snd st')%nat
  /\ Forall (fun A => built_by par ll opts A
                      /\ (previous A = None \/ (position A < S B)%nat))
            (fst st').
Proof.
  unfold process_item. intros HB H (Hfresh & Hall).
  assert (Hold : Forall (fun A => built_by par ll opts A
                      /\ (previous A = None \/ (position A < S B)%nat))
                   (fst st)).
  { eapply Forall_impl; [|exact Hall]. simpl.
    intros A (Hb & [Hp|Hp]); (split; [exact Hb|]); [now left | right; lia]. }
  destruct (is_feasible_breakpoint par B) eqn:Ef;
    [|injection H as <-; now split].
  destruct (scan_active par ll opts B (fst st) (snd st))
    as [((d & a) & f)|] eqn:Es; [|discriminate].
  injection H as <-. simpl.
  destruct (scan_active_built par ll opts B (fst st) _ _ _ _ Es)
    as (Hf & Ha & _).
  split; [lia|].
  rewrite Forall_forall in *. intros x Hx.
  apply activate_incl in Hx. destruct Hx as [Hx|Hx].
  - apply Hold. eapply deactivate_incl; eassumption.
  - destruct (Ha x Hx) as (A & dA & HA & Hge & He).
    destruct (examine_candidate _ _ _ _ _ _ _ _ He) as (Hp & Hpos & _).
    destruct (Hall A HA) as (HbA & HposA).
    split.
    + apply (built_by_step par ll opts x A dA); rewrite ?Hpos;
        try assumption; lia.
    + right. lia.
Qed.

Lemma after_items_built {V : Type} (par : KnuthPlassParagraph V)
    (ll : list Q) (opts : Options) (n : nat) :
  forall st,
    (n <= length (type par))%nat ->
    after_items par ll opts n = Some st ->
    (1 <= snd st)%nat
    /\ Forall (fun A => built_by par ll opts A
                        /\ (previous A = None \/ (position A < n)%nat))
              (fst st).
Proof.
  induction n as [|n IH]; intros st Hn H.
  - unfold after_items in H. simpl in H. injection H as <-. simpl.
    split; [lia|]. constructor; [|constructor].
    split; [reflexivity | now left].
  - rewrite after_items_S in H.
    destruct (after_items par ll opts n) as [st0|] eqn:E0; [|discriminate].
    eapply process_item_built; [|exact H|apply IH]; [lia | lia | reflexivity].
Qed.

(** A returned break list is the walk back from a node with a history. *)
Lemma returned_breaks_built {V : Type} (par : KnuthPlassParagraph V)
    (ll : list Q) (opts : Options) (breaks : list Break) :
  calc_knuth_plass_breaks par ll opts = Returned breaks ->
  exists A, built_by par ll opts A /\ breaks = rev (walk_back A).
Proof.
  unfold calc_knuth_plass_breaks, forward_pass.
  destruct (after_items par ll opts (length (type par)))
    as [(active & fresh)|] eqn:Ef; [|discriminate].
  destruct (after_items_built par ll opts _ _ (le_n _) Ef) as (_ & Hall).
  simpl in Hall.
  destruct active as [|first rest]; [discriminate|].
  destruct (select_terminal opts first (first :: rest)) as [A|] eqn:Es;
    [|discriminate].
  intro H. injection H as <-. exists A. split; [|reflexivity].
  rewrite Forall_forall in Hall. apply Hall.
  eapply select_terminal_in; [|exact Es]. now left.
Qed.

(** Every node on the walk back was created by the loop body, at a
    feasible breakpoint, from its predecessor. *)
Lemma walk_back_links {V : Type} (par : KnuthPlassParagraph V)
    (ll : list Q) (opts : Options) :
  forall A,
    built_by par ll opts A ->
    Forall (fun b => exists P dA,
                previous b = Some P
                /\ (position b < length (type par))%nat
                /\ is_feasible_breakpoint par (position b) = true
                /\ examine par ll opts (position b) P (addr b)
                   = Some (dA, Some b))
           (walk_back A).
Proof.
  induction A as [a p l f d r | a p l f d r B IH] using Break_chain_ind;
    intro H.
  - constructor.
  - simpl in H. destruct H as ((H1 & H2 & _ & _ & (dA & H5)) & HB).
    simpl. constructor; [|now apply IH].
    exists B, dA. simpl. repeat split; assumption.
Qed.

Lemma walk_back_root (A : Break) : previous A = None -> walk_back A = [].
Proof.
  destruct A as [a p l f d r prev]. simpl. now intros ->.
Qed.

Lemma walk_back_lines {V : Type} (par : KnuthPlassParagraph V)
    (ll : list Q) (opts : Options) :
  forall A,
    built_by par ll opts A ->
    line A = length (walk_back A)
    /\ map line (rev (walk_back A)) = seq 1 (length (walk_back A)).
Proof.
  induction A as [a p l f d r | a p l f d r B IH] using Break_chain_ind;
    intro H.
  - simpl in H. injection H as _ _ -> _ _ _. now split.
  - simpl in H. destruct H as ((_ & _ & _ & _ & (dA & H5)) & HB).
    destruct (IH HB) as (Hl & Hm).
    apply examine_candidate in H5. destruct H5 as (_ & _ & Hline & _).
    simpl in Hline. simpl walk_back. simpl length. simpl line.
    split; [lia|].
    simpl rev. rewrite map_app, Hm, seq_S. simpl. f_equal. f_equal. lia.
Qed.

Lemma ascending_snoc (l : list nat) (x : nat) :
  ascending l -> Forall (fun y => (y < x)%nat) l -> ascending (l ++ [x]).
Proof.
  induction l as [|y l IH]; simpl.
  - intros _ _. split; [constructor | exact I].
  - intros (Hy & Hl) Hall.
    apply Forall_cons_iff in Hall. destruct Hall as (Hyx & Hall).
    split; [|now apply IH].
    apply Forall_app. split; [exact Hy | now constructor].
Qed.

Lemma walk_back_positions {V : Type} (par : KnuthPlassParagraph V)
    (ll : list Q) (opts : Options) :
  forall A,
    built_by par ll opts A ->
    Forall (fun b => (position b <= position A)%nat) (walk_back A)
    /\ ascending (map position (rev (walk_back A))).
Proof.
  induction A as [a p l f d r | a p l f d r B IH] using Break_chain_ind;
    intro H.
  - split; [constructor | exact I].
  - simpl in H. destruct H as ((_ & _ & H3 & _) & HB).
    destruct (IH HB) as (Hle & Hasc).
    simpl walk_back.
    assert (Hlt : Forall (fun b => (position b < p)%nat) (walk_back B)).
    { destruct H3 as [H3|H3].
      - rewrite (walk_back_root B H3). constructor.
      - eapply Forall_impl; [|exact Hle]. simpl. intros b Hb. lia. }
    split.
    + constructor; [simpl; lia|].
      eapply Forall_impl; [|exact Hlt]. simpl. intros b Hb. lia.
    + simpl rev. rewrite map_app. simpl map.
      apply ascending_snoc; [exact Hasc|].
      apply Forall_map. now apply Forall_rev.
Qed.

(** ** What every returned break list satisfies *)

(** X7.  Every returned break is at an item of the paragraph that is a
    feasible breakpoint. *)
Theorem returned_breaks_at_feasible_breakpoints {V : Type}
    (par : KnuthPlassParagraph V) (line_lengths : list Q) (opts : Options)
    (breaks : list Break) :
  calc_knuth_plass_breaks par line_lengths opts = Returned breaks ->
  Forall (fun b => (position b < length (type par))%nat
                   /\ is_feasible_breakpoint par (position b) = true)
         breaks.
Proof.
  intro H. apply returned_breaks_built in H.
  destruct H as (A & HA & ->).
  apply Forall_rev.
  eapply Forall_impl; [|exact (walk_back_links par line_lengths opts A HA)].
  simpl. intros b (P & dA & _ & H1 & H2 & _). now split.
Qed.

Lemma returned_breaks_at_feasible_breakpoints_witness :
  Forall (fun b => (position b < length (type three_words))%nat
                   /\ is_feasible_breakpoint three_words (position b) = true)
         three_words_breaks.
Proof.
  apply (returned_breaks_at_feasible_breakpoints
           three_words [9] default_options).
  vm_compute. reflexivity.
Defined.

(** X8.  The returned breaks are numbered 1, 2, ..., n in order (the
    [line] of the last one is the number of lines), and their positions
    are strictly ascending. *)
Theorem returned_breaks_numbered_and_ascending {V : Type}
    (par : KnuthPlassParagraph V) (line_lengths : list Q) (opts : Options)
    (breaks : list Break) :
  calc_knuth_plass_breaks par line_lengths opts = Returned breaks ->
  map line breaks = seq 1 (length breaks)
  /\ ascending (map position breaks).
Proof.
  intro H. apply returned_breaks_built in H.
  destruct H as (A & HA & ->).
  destruct (walk_back_lines par line_lengths opts A HA) as (_ & Hl).
  destruct (walk_back_positions par line_lengths opts A HA) as (_ & Hp).
  rewrite length_rev. now split.
Qed.

Lemma returned_breaks_numbered_and_ascending_witness :
  map line three_words_breaks = seq 1 (length three_words_breaks)
  /\ ascending (map position three_words_breaks).
Proof.
  apply (returned_breaks_numbered_and_ascending
           three_words [9] default_options).
  vm_compute. reflexivity.
Defined.

Lemma classify_range (r : Q) : (0 <= classify r <= 3)%Z.
Proof.
  unfold classify.
  destruct (Qltb r (- (1 # 2))); [lia|].
  destruct (Qle_bool r (1 # 2)); [lia|].
  destruct (Qle_bool r 1); lia.
Qed.

Lemma classify_not_very_loose (r : Q) : r <= 1 -> (classify r <= 2)%Z.
Proof.
  intro Hr. unfold classify.
  destruct (Qltb r (- (1 # 2))); [lia|].
  destruct (Qle_bool r (1 # 2)); [lia|].
  destruct (Qle_bool r 1) eqn:E; [lia|].
  apply Qle_bool_iff in Hr. congruence.
Qed.

(** X9.  The fitness class of every returned break is the class of its
    ratio, one of 0, 1, 2, 3; with a tolerance of at most 1 the class 3
    does not occur. *)
Theorem returned_fitness_class_of_ratio {V : Type}
    (par : KnuthPlassParagraph V) (line_lengths : list Q) (opts : Options)
    (breaks : list Break) :
  calc_knuth_plass_breaks par line_lengths opts = Returned breaks ->
  Forall (fun b => fitness_class b = classify (ratio b)
                   /\ (0 <= fitness_class b <= 3)%Z
                   /\ (tolerance opts <= 1 -> (fitness_class b <= 2)%Z))
         breaks.
Proof.
  intro H. apply returned_breaks_built in H.
  destruct H as (A & HA & ->).
  apply Forall_rev.
  eapply Forall_impl; [|exact (walk_back_links par line_lengths opts A HA)].
  simpl. intros b (P & dA & _ & _ & _ & He).
  destruct (examine_fields _ _ _ _ _ _ _ _ He) as (_ & Hfc).
  destruct (examine_candidate _ _ _ _ _ _ _ _ He) as (_ & _ & _ & _ & _ & Hr).
  rewrite Hfc. split; [reflexivity|]. split; [apply classify_range|].
  intro Ht. apply classify_not_very_loose. lra.
Qed.

Lemma returned_fitness_class_of_ratio_witness :
  Forall (fun b => fitness_class b = classify (ratio b)
                   /\ (0 <= fitness_class b <= 3)%Z
                   /\ (tolerance default_options <= 1
                       -> (fitness_class b <= 2)%Z))
         three_words_breaks.
Proof.
  apply (returned_fitness_class_of_ratio three_words [9] default_options).
  vm_compute. reflexivity.
Defined.

Lemma walk_back_last {V : Type} (par : KnuthPlassParagraph V)
    (ll : list Q) (opts : Options) (A : Break) :
  built_by par ll opts A -> last (rev (walk_back A)) origin = A.
Proof.
  destruct A as [a p l f d r [B|]]; simpl.
  - intros _. apply last_last.
  - intros ->. reflexivity.
Qed.

Lemma firstn_snoc_last (l : list Break) :
  forall x, firstn (length l) (x :: l) ++ [last l x] = x :: l.
Proof.
  induction l as [|y l IH]; intro x; [reflexivity|].
  change (firstn (length (y :: l)) (x :: y :: l))
    with (x :: firstn (length l) (y :: l)).
  assert (E : last (y :: l) x = last l y).
  { clear IH. revert x y. induction l as [|z l IH]; intros x y;
      [reflexivity|].
    change (last (y :: z :: l) x) with (last (z :: l) x).
    now rewrite (IH x z), (IH y z). }
  rewrite E. simpl. now rewrite IH.
Qed.

Lemma walk_back_predecessors {V : Type} (par : KnuthPlassParagraph V)
    (ll : list Q) (opts : Options) :
  forall A,
    built_by par ll opts A ->
    map previous (rev (walk_back A))
    = map Some (firstn (length (walk_back A)) (origin :: rev (walk_back A))).
Proof.
  induction A as [a p l f d r | a p l f d r B IH] using Break_chain_ind;
    intro H.
  - reflexivity.
  - simpl in H. destruct H as (_ & HB).
    pose proof (walk_back_last par ll opts B HB) as Hlast.
    specialize (IH HB).
    simpl walk_back. simpl rev. rewrite map_app, IH. simpl map.
    simpl length.
    change (firstn (S (length (walk_back B)))
              (origin :: rev (walk_back B) ++ [mkBreak a p l f d r (Some B)]))
      with (origin :: firstn (length (walk_back B))
                        (rev (walk_back B) ++ [mkBreak a p l f d r (Some B)])).
    rewrite firstn_app, length_rev, Nat.sub_diag. simpl firstn at 2.
    rewrite app_nil_r.
    pose proof (firstn_snoc_last (rev (walk_back B)) origin) as E.
    rewrite Hlast in E.
    rewrite <- (length_rev (walk_back B)). rewrite firstn_all.
    change [Some B] with (map Some [B]). rewrite <- map_app, E.
    reflexivity.
Qed.

(** X10.  Reconstruction is consistent: the predecessor of each returned
    break is the break before it in the list (the origin for the first),
    and the ratio of each break is the adjustment ratio computed for the
    items between its predecessor and itself on the predecessor's line
    number. *)
Theorem returned_breaks_chain_through_predecessors {V : Type}
    (par : KnuthPlassParagraph V) (line_lengths : list Q) (opts : Options)
    (breaks : list Break) :
  calc_knuth_plass_breaks par line_lengths opts = Returned breaks ->
  map previous breaks
  = map Some (firstn (length breaks) (origin :: breaks))
  /\ Forall (fun b => exists P,
                 previous b = Some P
                 /\ compute_adjustment_ratio par (position P) (position b)
                      (line P) line_lengths = Some (ratio b))
            breaks.
Proof.
  intro H. apply returned_breaks_built in H.
  destruct H as (A & HA & ->).
  split.
  - rewrite length_rev. now apply (walk_back_predecessors par line_lengths opts).
  - apply Forall_rev.
    eapply Forall_impl; [|exact (walk_back_links par line_lengths opts A HA)].
    simpl. intros b (P & dA & Hp & _ & _ & He).
    exists P. split; [exact Hp|].
    now destruct (examine_candidate _ _ _ _ _ _ _ _ He)
      as (_ & _ & _ & Hc & _).
Qed.

Lemma returned_breaks_chain_through_predecessors_witness :
  map previous three_words_breaks
  = map Some (firstn (length three_words_breaks)
                (origin :: three_words_breaks))
  /\ Forall (fun b => exists P,
                 previous b = Some P
                 /\ compute_adjustment_ratio three_words (position P)
                      (position b) (line P) [9] = Some (ratio b))
            three_words_breaks.
Proof.
  apply (returned_breaks_chain_through_predecessors
           three_words [9] default_options).
  vm_compute. reflexivity.
Defined.

(** ** Unused fields of built paragraphs *)

Lemma run_calls_snoc {V : Type} (par : KnuthPlassParagraph V)
    (cs : list (BuilderCall V)) (c : BuilderCall V) :
  run_calls par (cs ++ [c]) = run_call (run_calls par cs) c.
Proof.
  unfold run_calls. now rewrite fold_left_app.
Qed.

Lemma nth_push_back {A : Type} (v : list A) (x d : A) (i n : nat) :
  length v = n ->
  nth i (push_back v x) d
  = if (i <? n)%nat then nth i v d else if (i =? n)%nat then x else d.
Proof.
  intros <-. unfold push_back.
  destruct (i <? length v)%nat eqn:E1.
  - apply Nat.ltb_lt in E1. now apply app_nth1.
  - apply Nat.ltb_ge in E1.
    destruct (i =? length v)%nat eqn:E2.
    + apply Nat.eqb_eq in E2. subst i.
      rewrite app_nth2 by lia. now rewrite Nat.sub_diag.
    + apply Nat.eqb_neq in E2. apply nth_overflow.
      rewrite length_app. simpl. lia.
Qed.

Lemma built_paragraph_unused_fields_if {V : Type}
    (cs : list (BuilderCall V)) (i : nat) :
  (nth i (type (run_calls empty_paragraph cs)) BOX <> GLUE ->
   nth i (stretch (run_calls empty_paragraph cs)) 0 = 0
   /\ nth i (shrink (run_calls empty_paragraph cs)) 0 = 0)
  /\ (nth i (type (run_calls empty_paragraph cs)) BOX <> PENALTY ->
      nth i (penalty (run_calls empty_paragraph cs)) 0 = 0
      /\ nth i (flagged (run_calls empty_paragraph cs)) false = false).
Proof.
  induction cs as [|c cs IH] using rev_ind.
  - simpl. destruct i; repeat split.
  - rewrite run_calls_snoc.
    pose proof (run_calls_parallel cs empty_paragraph 0%nat) as Hp.
    simpl in Hp.
    destruct Hp as (Ht & Hw & Hy & Hz & Hpn & Hf & Hv);
      [unfold parallel; simpl; repeat split|].
    destruct IH as (IH1 & IH2).
    destruct c as [w v | z w y v | w p f v]; simpl;
      rewrite (nth_push_back _ _ _ i _ Ht), (nth_push_back _ _ _ i _ Hy),
              (nth_push_back _ _ _ i _ Hz), (nth_push_back _ _ _ i _ Hpn),
              (nth_push_back _ _ _ i _ Hf);
      destruct (i <? length cs)%nat; try (split; assumption);
      destruct (i =? length cs)%nat; repeat split; congruence.
Qed.

(** X11.  In a paragraph built by [add_box], [add_glue] and [add_penalty]
    alone, whatever the sequence of calls, a box has stretch, shrink and
    penalty 0 and is not flagged, a glue has penalty 0 and is not flagged,
    and a penalty has stretch 0 and shrink 0. *)
Theorem built_paragraph_unused_fields {V : Type}
    (cs : list (BuilderCall V)) (i : nat) :
  match nth i (type (run_calls empty_paragraph cs)) BOX with
  | BOX =>
    nth i (stretch (run_calls empty_paragraph cs)) 0 = 0
    /\ nth i (shrink (run_calls empty_paragraph cs)) 0 = 0
    /\ nth i (penalty (run_calls empty_paragraph cs)) 0 = 0
    /\ nth i (flagged (run_calls empty_paragraph cs)) false = false
  | GLUE =>
    nth i (penalty (run_calls empty_paragraph cs)) 0 = 0
    /\ nth i (flagged (run_calls empty_paragraph cs)) false = false
  | PENALTY =>
    nth i (stretch (run_calls empty_paragraph cs)) 0 = 0
    /\ nth i (shrink (run_calls empty_paragraph cs)) 0 = 0
  end.
Proof.
  destruct (built_paragraph_unused_fields_if cs i) as (H1 & H2).
  destruct (nth i (type (run_calls empty_paragraph cs)) BOX).
  - destruct H1 as (? & ?); [discriminate|].
    destruct H2 as (? & ?); [discriminate|]. repeat split; assumption.
  - apply H2. discriminate.
  - apply H1. discriminate.
Qed.

(** ** Demerits and the survival of the origin *)

Lemma line_demerits_at_least_one (r p : Q) : 1 <= line_demerits r p.
Proof.
  unfold line_demerits.
  assert (Hx : 0 <= Qabs r ^ 3) by (apply Qpower_0_le, Qabs_nonneg).
  destruct (Qle_bool 0 p) eqn:E0.
  - apply Qle_bool_iff in E0.
    assert (Hc : 0 <= (Qabs r ^ 3 + p) ^ 3) by (apply Qpower_0_le; lra).
    lra.
  - assert (Hp : p < 0).
    { apply Qnot_le_lt. intro L. apply Qle_bool_iff in L. congruence. }
    assert (Hs : 0 <= (Qabs r ^ 3) ^ 2) by (apply Qpower_0_le; exact Hx).
    destruct (Qltb INFq p) eqn:E1; [|lra].
    apply Qltb_lt in E1. pose proof INFq_positive. lra.
Qed.

Lemma examine_demerits {V : Type} (par : KnuthPlassParagraph V)
    (ll : list Q) (opts : Options) (B : nat) (A : Break) (fresh : nat)
    (dA : bool) (c : Break) :
  0 <= fitness_demerit opts -> 0 <= flagged_demerit opts ->
  examine par ll opts B A fresh = Some (dA, Some c) ->
  1 <= demerits c.
Proof.
  intros Hfit Hflag. unfold examine.
  destruct (compute_adjustment_ratio par (position A) B (line A) ll)
    as [r|]; [|discriminate].
  cbv zeta.
  destruct (Qle_bool (- 1) r && Qle_bool r (tolerance opts));
    [|discriminate].
  intro H. injection H as _ <-. simpl.
  pose proof (line_demerits_at_least_one r (nth B (penalty par) 0)) as Hd.
  destruct (nth (position A) (flagged par) false && nth B (flagged par) false);
    destruct (1 <? Z.abs (classify r - fitness_class A))%Z; lra.
Qed.

(** When the loop body marks a node for removal. *)
Lemma examine_marks {V : Type} (par : KnuthPlassParagraph V)
    (ll : list Q) (opts : Options) (B : nat) (A : Break) (fresh : nat)
    (c : option Break) :
  examine par ll opts B A fresh = Some (true, c) ->
  exists r,
    compute_adjustment_ratio par (position A) B (line A) ll = Some r
    /\ (r < - 1 \/ INFq < nth B (penalty par) 0).
Proof.
  unfold examine.
  destruct (compute_adjustment_ratio par (position A) B (line A) ll)
    as [r|]; [|discriminate].
  cbv zeta. intro H. injection H as Hm _.
  exists r. split; [reflexivity|].
  apply orb_true_iff in Hm. destruct Hm as [Hm|Hm]; apply Qltb_lt in Hm; auto.
Qed.

Lemma add_active_node_keeps (nodes : list Break) (node x : Break) :
  In x nodes -> In x (add_active_node nodes node).
Proof.
  destruct (add_active_node_split nodes node)
    as (pre & suf & E & _ & _ & ->).
  destruct (has_match suf node); [tauto|].
  subst nodes. rewrite !in_app_iff. simpl. tauto.
Qed.

Lemma activate_keeps (to_activate : list Break) :
  forall (nodes : list Break) (x : Break),
    In x nodes -> In x (activate nodes to_activate).
Proof.
  unfold activate.
  induction to_activate as [|n rest IH]; intros nodes x Hx; simpl;
    [exact Hx|].
  apply IH. now apply add_active_node_keeps.
Qed.

Lemma erase_node_keeps (nodes : list Break) (bn x : Break) :
  In x nodes -> addr bn <> addr x -> In x (erase_node nodes bn).
Proof.
  intros Hx Hne.
  induction nodes as [|a rest IH]; simpl; [destruct Hx|].
  destruct (addr a =? addr bn)%nat eqn:E.
  - apply Nat.eqb_eq in E. destruct Hx as [->|Hx]; [congruence | exact Hx].
  - destruct Hx as [->|Hx]; [now left | right; now apply IH].
Qed.

(** The removal loop only removes nodes that are on the removal list. *)
Lemma deactivate_keeps (to_deactivate : list Break) :
  forall (nodes : list Break) (x : Break),
    In x nodes ->
    Forall (fun bn => addr bn <> addr x) to_deactivate ->
    In x (deactivate nodes to_deactivate).
Proof.
  induction to_deactivate as [|bn rest IH]; intros nodes x Hx Hall; simpl;
    [exact Hx|].
  apply Forall_cons_iff in Hall. destruct Hall as (Hbn & Hall).
  destruct (length nodes =? 1)%nat; [exact Hx|].
  apply IH; [|exact Hall]. now apply erase_node_keeps.
Qed.

Lemma built_feasible_penalty_at_most_INF {V : Type}
    (cs : list (BuilderCall V)) (B : nat) :
  is_feasible_breakpoint (run_calls empty_paragraph cs) B = true ->
  nth B (penalty (run_calls empty_paragraph cs)) 0 <= INFq.
Proof.
  intro Hf.
  destruct (built_paragraph_unused_fields_if cs B) as (_ & H2).
  unfold is_feasible_breakpoint in Hf.
  destruct (nth B (type (run_calls empty_paragraph cs)) BOX) eqn:Et.
  - simpl in Hf. rewrite andb_false_r in Hf. discriminate.
  - destruct (H2 ltac:(discriminate)) as (E & _). rewrite E.
    apply Qlt_le_weak, INFq_positive.
  - simpl in Hf.
    destruct (Qltb (nth B (penalty (run_calls empty_paragraph cs)) 0) INFq)
      eqn:E; [|simpl in Hf; rewrite andb_false_r in Hf; discriminate].
    apply Qltb_lt in E. lra.
Qed.

(** While no line from the origin is too wide for its shrink, the origin
    stays active. *)
Lemma after_items_origin {V : Type} (par : KnuthPlassParagraph V)
    (ll : list Q) (opts : Options) :
  (forall B, is_feasible_breakpoint par B = true ->
             nth B (penalty par) 0 <= INFq) ->
  (forall B r, (B < length (type par))%nat ->
               is_feasible_breakpoint par B = true ->
               compute_adjustment_ratio par 0 B 0 ll = Some r ->
               - 1 <= r) ->
  forall n st,
    (n <= length (type par))%nat ->
    after_items par ll opts n = Some st ->
    In origin (fst st).
Proof.
  intros Hpen Hr.
  induction n as [|n IH]; intros st Hn H.
  - unfold after_items in H. simpl in H. injection H as <-. now left.
  - rewrite after_items_S in H.
    destruct (after_items par ll opts n) as [st0|] eqn:E0; [|discriminate].
    assert (Hn' : (n <= length (type par))%nat) by lia.
    specialize (IH st0 Hn' eq_refl).
    destruct (after_items_built par ll opts n st0 Hn' E0) as (_ & Hall).
    unfold process_item in H.
    destruct (is_feasible_breakpoint par n) eqn:Ef;
      [|injection H as <-; exact IH].
    destruct (scan_active par ll opts n (fst st0) (snd st0))
      as [((d & a) & f)|] eqn:Es; [|discriminate].
    injection H as <-. simpl.
    apply activate_keeps. apply deactivate_keeps; [exact IH|].
    destruct (scan_active_built par ll opts n (fst st0) _ _ _ _ Es)
      as (_ & _ & Hd).
    eapply Forall_impl; [|exact Hd]. simpl.
    intros bn (Hin & f0 & c & He).
    rewrite Forall_forall in Hall. destruct (Hall bn Hin) as (Hb & _).
    apply built_by_unfold in Hb.
    destruct (previous bn) as [P|].
    + destruct Hb as ((_ & _ & _ & Haddr & _) & _). simpl. lia.
    + subst bn. exfalso.
      apply examine_marks in He. destruct He as (r & Hc & [Hlt|Hlt]).
      * simpl in Hc. specialize (Hr n r ltac:(lia) Ef Hc). lra.
      * specialize (Hpen n Ef). lra.
Qed.

(** X12.  For a built paragraph, non-negative [fitness_demerit] and
    [flagged_demerit], at least one line length and looseness 0: when no
    line that starts at the first item and ends at a feasible breakpoint
    is wider than its shrink allows (every such ratio is at least -1), the
    origin is never removed; its demerits 0 are below the demerits, at
    least 1, of every other node, and the call returns the empty break
    list. *)
Theorem surviving_origin_returns_no_break {V : Type}
    (cs : list (BuilderCall V)) (line_lengths : list Q) (opts : Options) :
  line_lengths <> [] ->
  looseness opts == 0 ->
  0 <= fitness_demerit opts ->
  0 <= flagged_demerit opts ->
  (forall B r,
      (B < length (type (run_calls empty_paragraph cs)))%nat ->
      is_feasible_breakpoint (run_calls empty_paragraph cs) B = true ->
      compute_adjustment_ratio (run_calls empty_paragraph cs) 0 B 0
        line_lengths = Some r ->
      - 1 <= r) ->
  calc_knuth_plass_breaks (run_calls empty_paragraph cs) line_lengths opts
  = Returned [].
Proof.
  intros Hne H0 Hfit Hflag Hr.
  set (par := run_calls empty_paragraph cs) in *.
  destruct (after_items_defined par line_lengths opts (length (type par)) Hne)
    as ((active & fresh) & Ef).
  pose proof (after_items_origin par line_lengths opts
                (built_feasible_penalty_at_most_INF cs) Hr
                _ _ (le_n _) Ef) as Ho.
  destruct (after_items_built par line_lengths opts _ _ (le_n _) Ef)
    as (_ & Hall).
  simpl in Ho, Hall.
  unfold calc_knuth_plass_breaks, forward_pass. rewrite Ef.
  destruct active as [|first rest]; [destruct Ho|].
  destruct (select_terminal_least opts first rest H0) as (A & -> & HA & Hmin).
  rewrite Forall_forall in Hall, Hmin.
  specialize (Hmin origin Ho). simpl in Hmin.
  destruct (Hall A HA) as (Hb & _).
  pose proof (walk_back_links par line_lengths opts A Hb) as Hl.
  destruct (walk_back A) as [|b wb] eqn:Ew; [reflexivity|].
  exfalso.
  destruct A as [a p l f d r [P|]]; [|discriminate Ew].
  simpl in Ew. injection Ew as <- _.
  apply Forall_cons_iff in Hl. destruct Hl as ((P' & dA & _ & _ & _ & He) & _).
  pose proof (examine_demerits _ _ _ _ _ _ _ _ Hfit Hflag He) as Hd.
  simpl in Hd, Hmin. lra.
Qed.

Lemma surviving_origin_returns_no_break_witness :
  calc_knuth_plass_breaks
    (run_calls empty_paragraph
       [CallBox 10 tt; CallGlue 0 0 0 tt; CallBox 10 tt; CallGlue 0 0 0 tt;
        CallPenalty 0 (- INFq) false tt])
    [10] default_options
  = Returned [].
Proof.
  apply (surviving_origin_returns_no_break
           [CallBox 10 tt; CallGlue 0 0 0 tt; CallBox 10 tt; CallGlue 0 0 0 tt;
            CallPenalty 0 (- INFq) false tt] [10] default_options).
  - discriminate.
  - reflexivity.
  - vm_compute. discriminate.
  - vm_compute. discriminate.
  - intros B r HB Hf Hc.
    destruct B as [|[|[|[|[|B]]]]];
      try (vm_compute in Hf; discriminate Hf);
      try (vm_compute in HB; lia);
      vm_compute in Hc; injection Hc as <-; vm_compute; discriminate.
Defined.

(** ** The selection *)

(** X13.  With looseness 0 the returned list is the walk back from an
    active node that has the fewest demerits of all active nodes. *)
Theorem zero_looseness_returns_least_demerits {V : Type}
    (par : KnuthPlassParagraph V) (line_lengths : list Q) (opts : Options)
    (active_nodes : list Break) (fresh : nat) :
  looseness opts == 0 ->
  forward_pass par line_lengths opts = Some (active_nodes, fresh) ->
  exists A,
    In A active_nodes
    /\ Forall (fun n => demerits A <= demerits n) active_nodes
    /\ calc_knuth_plass_breaks par line_lengths opts
       = Returned (rev (walk_back A)).
Proof.
  intros H0 Hf.
  pose proof (after_items_kept par line_lengths opts _ _ Hf) as (_ & _ & Hne).
  simpl in Hne.
  destruct active_nodes as [|first rest]; [congruence|].
  destruct (select_terminal_least opts first rest H0) as (A & Hs & HA & Hmin).
  exists A. repeat split; try assumption.
  unfold calc_knuth_plass_breaks. now rewrite Hf, Hs.
Qed.

Lemma zero_looseness_returns_least_demerits_witness :
  exists A,
    In A two_lines_frontier
    /\ Forall (fun n => demerits A <= demerits n) two_lines_frontier
    /\ calc_knuth_plass_breaks two_lines_forced [10] default_options
       = Returned (rev (walk_back A)).
Proof.
  apply (zero_looseness_returns_least_demerits
           two_lines_forced [10] default_options two_lines_frontier 4).
  - reflexivity.
  - vm_compute. reflexivity.
Defined.

Lemma to_unsigned_int_defined (x : Q) :
  0 <= x -> x < inject_Z (2 ^ 32) -> exists d, to_unsigned_int x = Some d.
Proof.
  destruct x as [n d]. unfold to_unsigned_int, Qle, Qlt.
  cbn [Qnum Qden inject_Z].
  assert (HP : (2 ^ 32 = 4294967296)%Z) by reflexivity. rewrite !HP.
  intros H0 H1.
  assert (Hn : (0 <= n)%Z) by lia.
  rewrite Z.quot_div_nonneg by lia.
  assert (Hq : (0 <= n / Zpos d < 4294967296)%Z).
  { split.
    - apply Z.div_pos; lia.
    - apply Z.div_lt_upper_bound; lia. }
  destruct ((0 <=? n / Zpos d) && (n / Zpos d <? 4294967296))%Z eqn:E;
    [now eexists|].
  apply andb_false_iff in E. destruct E as [E|E].
  - apply Z.leb_gt in E. lia.
  - apply Z.ltb_ge in E. lia.
Qed.

(** With a positive looseness every node passes the first test of the
    loop, so [b] ends as the last node. *)
Lemma looseness_loop_positive (lo : Q) (A : Break) (nodes : list Break) :
  0 < lo ->
  Forall (fun n => 0 <= demerits n /\ demerits n < inject_Z (2 ^ 32)) nodes ->
  forall d b,
    looseness_loop lo A nodes 0 d b
    = Some (fold_left (fun _ n => Some n) nodes b).
Proof.
  intros Hlo.
  induction nodes as [|br rest IH]; intros Hall d b; [reflexivity|].
  apply Forall_cons_iff in Hall. destruct Hall as ((Hd0 & Hd1) & Hall).
  simpl.
  assert (Ht : (Qle_bool lo (inject_Z (line_delta br A))
                && (line_delta br A <? 0)%Z)
               || ((0 <? line_delta br A)%Z
                   || Qltb (inject_Z (line_delta br A)) lo) = true).
  { apply orb_true_iff. right.
    assert (Hr : (0 <= line_delta br A)%Z)
      by (unfold line_delta; apply Z.mod_pos_bound; lia).
    destruct (0 <? line_delta br A)%Z eqn:E; [reflexivity|].
    apply Z.ltb_ge in E.
    assert (E0 : line_delta br A = 0%Z) by lia.
    rewrite E0. simpl. now apply Qltb_lt. }
  rewrite Ht.
  destruct (to_unsigned_int_defined (demerits br) Hd0 Hd1) as (d' & ->).
  now apply IH.
Qed.

Lemma fold_left_keeps_last (nodes : list Break) :
  forall (b : option Break) (first : Break),
    nodes <> [] ->
    fold_left (fun _ n => Some n) nodes b = Some (last nodes first).
Proof.
  induction nodes as [|n rest IH]; intros b first Hne; [congruence|].
  destruct rest as [|m rest']; [reflexivity|].
  change (fold_left (fun _ n0 => Some n0) (n :: m :: rest') b)
    with (fold_left (fun (_ : option Break) n0 => Some n0) (m :: rest') (Some n)).
  rewrite (IH (Some n) first); [reflexivity | discriminate].
Qed.

(** X14.  With a positive looseness, and demerits that fit an
    [unsigned int], the selection ends on the last node of the active list
    (a node with the largest line number), whatever the looseness and the
    demerits are: the returned list is the walk back from that node. *)
Theorem positive_looseness_returns_last_active_node {V : Type}
    (par : KnuthPlassParagraph V) (line_lengths : list Q) (opts : Options)
    (active_nodes : list Break) (fresh : nat) :
  0 < looseness opts ->
  forward_pass par line_lengths opts = Some (active_nodes, fresh) ->
  Forall (fun n => 0 <= demerits n /\ demerits n < inject_Z (2 ^ 32))
         active_nodes ->
  calc_knuth_plass_breaks par line_lengths opts
  = Returned (rev (walk_back (last active_nodes origin)))
  /\ Forall (fun n => (line n <= line (last active_nodes origin))%nat)
            active_nodes.
Proof.
  intros Hlo Hf Hall.
  pose proof (after_items_kept par line_lengths opts _ _ Hf) as (Hs & _ & Hne).
  simpl in Hs, Hne.
  split.
  - unfold calc_knuth_plass_breaks. rewrite Hf.
    destruct active_nodes as [|first rest]; [congruence|].
    unfold select_terminal.
    assert (E : Qeq_bool (looseness opts) 0 = false).
    { destruct (Qeq_bool (looseness opts) 0) eqn:E; [|reflexivity].
      apply Qeq_bool_iff in E. lra. }
    rewrite E. simpl negb. cbv iota.
    rewrite (looseness_loop_positive _ _ _ Hlo Hall).
    rewrite (fold_left_keeps_last (first :: rest) None origin) by discriminate.
    reflexivity.
  - clear Hf Hall Hne. induction active_nodes as [|a rest IH]; [constructor|].
    simpl in Hs. destruct Hs as (Ha & Hs).
    destruct rest as [|b rest']; [constructor; [simpl; lia | constructor]|].
    specialize (IH Hs).
    change (last (a :: b :: rest') origin) with (last (b :: rest') origin).
    constructor; [|exact IH].
    apply Forall_cons_iff in Ha, IH. lia.
Qed.

Lemma positive_looseness_returns_last_active_node_witness :
  calc_knuth_plass_breaks two_lines_forced [10] (with_looseness 1)
  = Returned (rev (walk_back (last two_lines_frontier origin)))
  /\ Forall (fun n => (line n <= line (last two_lines_frontier origin))%nat)
            two_lines_frontier.
Proof.
  apply (positive_looseness_returns_last_active_node
           two_lines_forced [10] (with_looseness 1) two_lines_frontier 4).
  - reflexivity.
  - vm_compute. reflexivity.
  - repeat constructor; vm_compute; discriminate.
Defined.

(** ** [make_simple_paragraph] *)

Lemma run_calls_fields {V : Type} (cs : list (BuilderCall V)) :
  forall par : KnuthPlassParagraph V,
    type (run_calls par cs) = type par ++ map call_type cs
    /\ penalty (run_calls par cs) = penalty par ++ map call_penalty cs
    /\ value (run_calls par cs) = value par ++ map call_value cs.
Proof.
  induction cs as [|c cs IH]; intro par; simpl.
  - now rewrite !app_nil_r.
  - destruct (IH (run_call par c)) as (Ht & Hp & Hv).
    unfold run_calls in *. rewrite Ht, Hp, Hv.
    destruct c; simpl; unfold push_back; rewrite <- !app_assoc; now simpl.
Qed.

Lemma make_simple_paragraph_calls (text : list ascii) :
  make_simple_paragraph text
  = run_calls empty_paragraph
      (map simple_call (c_str text) ++ simple_paragraph_end).
Proof.
  unfold make_simple_paragraph, run_calls. now rewrite fold_left_app.
Qed.

Lemma make_simple_paragraph_parallel (text : list ascii) :
  parallel (length (c_str text) + 3) (make_simple_paragraph text).
Proof.
  rewrite make_simple_paragraph_calls.
  pose proof (run_calls_parallel
                (map simple_call (c_str text) ++ simple_paragraph_end)
                empty_paragraph 0%nat) as H.
  rewrite length_app, length_map in H. simpl in H. apply H.
  unfold parallel. simpl. repeat split.
Qed.

Lemma simple_call_type (c : ascii) :
  call_type (simple_call c)
  = if is_blank c then GLUE else if is_ordinary c then BOX else PENALTY.
Proof.
  unfold simple_call, is_ordinary.
  destruct (is_blank c); [reflexivity|].
  destruct (Ascii.eqb c "@"); [reflexivity|].
  destruct (Ascii.eqb c "~"); reflexivity.
Qed.

Lemma INFq_le_minus_INF_unsigned : INFq <= inject_Z minus_INF_unsigned.
Proof. vm_compute. discriminate. Qed.

Lemma simple_call_penalty (c : ascii) :
  call_type (simple_call c) = PENALTY -> INFq <= call_penalty (simple_call c).
Proof.
  unfold simple_call.
  destruct (is_blank c); [discriminate|].
  destruct (Ascii.eqb c "@"); [intros _; apply INFq_le_minus_INF_unsigned|].
  destruct (Ascii.eqb c "~"); [intros _; apply Qle_refl | discriminate].
Qed.

Lemma simple_calls_penalty (text : list ascii) (B : nat) :
  let c := nth B (map simple_call (c_str text) ++ simple_paragraph_end)
               (CallBox 0 " "%char) in
  call_type c = PENALTY -> INFq <= call_penalty c.
Proof.
  intro c. subst c.
  destruct (nth_in_or_default B
              (map simple_call (c_str text) ++ simple_paragraph_end)
              (CallBox 0 " "%char)) as [Hin| ->]; [|discriminate].
  apply in_app_iff in Hin. destruct Hin as [Hin|Hin].
  - apply in_map_iff in Hin. destruct Hin as (ch & <- & _).
    apply simple_call_penalty.
  - destruct Hin as [<-|[<-|[<-|[]]]]; simpl; intro H;
      first [discriminate H | apply Qle_refl
             | apply INFq_le_minus_INF_unsigned].
Qed.

Lemma simple_calls_at (text : list ascii) (B : nat) :
  nth B (map simple_call (c_str text) ++ simple_paragraph_end)
      (CallBox 0 " "%char)
  = if (B <? length (c_str text))%nat
    then simple_call (nth B (c_str text) "000"%char)
    else nth (B - length (c_str text)) simple_paragraph_end
             (CallBox 0 " "%char).
Proof.
  destruct (B <? length (c_str text))%nat eqn:E.
  - apply Nat.ltb_lt in E.
    rewrite app_nth1 by now rewrite length_map.
    rewrite (nth_indep _ _ (simple_call "000"%char))
      by now rewrite length_map.
    apply map_nth.
  - apply Nat.ltb_ge in E.
    rewrite app_nth2 by now rewrite length_map.
    now rewrite length_map.
Qed.

Lemma make_simple_paragraph_item (text : list ascii) (B : nat) :
  nth B (type (make_simple_paragraph text)) BOX
  = call_type (nth B (map simple_call (c_str text) ++ simple_paragraph_end)
                   (CallBox 0 " "%char))
  /\ nth B (penalty (make_simple_paragraph text)) 0
     = call_penalty
         (nth B (map simple_call (c_str text) ++ simple_paragraph_end)
              (CallBox 0 " "%char)).
Proof.
  rewrite make_simple_paragraph_calls.
  destruct (run_calls_fields
              (map simple_call (c_str text) ++ simple_paragraph_end)
              empty_paragraph) as (-> & -> & _).
  simpl type. simpl penalty. rewrite !app_nil_l.
  split.
  - change BOX with (call_type (CallBox 0 " "%char : BuilderCall ascii)) at 1.
    apply map_nth.
  - change 0 with (call_penalty (CallBox 0 " "%char : BuilderCall ascii)) at 1.
    apply map_nth.
Qed.

(** The type of the item [B] of a simple paragraph: the type of the call
    for its character, and penalty, glue, penalty at the end. *)
Lemma make_simple_paragraph_type (text : list ascii) (B : nat) :
  nth B (type (make_simple_paragraph text)) BOX
  = if (B <? length (c_str text))%nat
    then call_type (simple_call (nth B (c_str text) "000"%char))
    else match (B - length (c_str text))%nat with
         | 0%nat => PENALTY
         | 1%nat => GLUE
         | 2%nat => PENALTY
         | _ => BOX
         end.
Proof.
  destruct (make_simple_paragraph_item text B) as (-> & _).
  rewrite simple_calls_at.
  destruct (B <? length (c_str text))%nat; [reflexivity|].
  destruct (B - length (c_str text))%nat as [|[|[|[|k]]]]; reflexivity.
Qed.

(** X15.  [make_simple_paragraph] makes one item per character of the text
    and three more, so that all seven vectors have [strlen(text) + 3]
    entries: a glue for a blank, a penalty for ['@'] and ['~'], a box for
    any other character, and at the end a penalty, a glue and a penalty. *)
Theorem make_simple_paragraph_items (text : list ascii) :
  parallel (length (c_str text) + 3) (make_simple_paragraph text)
  /\ (forall B,
        (B < length (c_str text))%nat ->
        nth B (type (make_simple_paragraph text)) BOX
        = if is_blank (nth B (c_str text) "000"%char) then GLUE
          else if is_ordinary (nth B (c_str text) "000"%char) then BOX
          else PENALTY)
  /\ nth (length (c_str text)) (type (make_simple_paragraph text)) BOX
     = PENALTY
  /\ nth (length (c_str text) + 1) (type (make_simple_paragraph text)) BOX
     = GLUE
  /\ nth (length (c_str text) + 2) (type (make_simple_paragraph text)) BOX
     = PENALTY.
Proof.
  split; [apply make_simple_paragraph_parallel|].
  split; [|repeat split].
  - intros B HB. rewrite make_simple_paragraph_type.
    apply Nat.ltb_lt in HB. rewrite HB. apply simple_call_type.
  - rewrite make_simple_paragraph_type, Nat.ltb_irrefl, Nat.sub_diag.
    reflexivity.
  - rewrite make_simple_paragraph_type.
    replace (length (c_str text) + 1 <? length (c_str text))%nat with false
      by (symmetry; apply Nat.ltb_ge; lia).
    replace (length (c_str text) + 1 - length (c_str text))%nat with 1%nat
      by lia.
    reflexivity.
  - rewrite make_simple_paragraph_type.
    replace (length (c_str text) + 2 <? length (c_str text))%nat with false
      by (symmetry; apply Nat.ltb_ge; lia).
    replace (length (c_str text) + 2 - length (c_str text))%nat with 2%nat
      by lia.
    reflexivity.
Qed.

Lemma simple_paragraph_penalty_infeasible (text : list ascii) (B : nat) :
  SpecType_eqb (nth B (type (make_simple_paragraph text)) BOX) PENALTY
  && Qltb (nth B (penalty (make_simple_paragraph text)) 0) INFq
  = false.
Proof.
  destruct (make_simple_paragraph_item text B) as (-> & ->).
  pose proof (simple_calls_penalty text B) as H. cbv zeta in H.
  destruct (call_type _) eqn:Et; try reflexivity.
  specialize (H eq_refl). simpl. now apply Qltb_ge.
Qed.

Lemma simple_paragraph_feasible_is_blank (text : list ascii) (B : nat) :
  is_feasible_breakpoint (make_simple_paragraph text) B = true ->
  (1 <= B)%nat /\ (B < length (c_str text))%nat
  /\ is_blank (nth B (c_str text) "000"%char) = true
  /\ is_ordinary (nth (B - 1) (c_str text) "000"%char) = true.
Proof.
  unfold is_feasible_breakpoint.
  rewrite simple_paragraph_penalty_infeasible.
  rewrite !make_simple_paragraph_type.
  set (n := length (c_str text)).
  intro H.
  destruct (0 <? B)%nat eqn:E0; [|discriminate].
  apply Nat.ltb_lt in E0.
  destruct (B <? n)%nat eqn:E1.
  + apply Nat.ltb_lt in E1.
    assert (E2 : (B - 1 <? n)%nat = true) by (apply Nat.ltb_lt; lia).
    rewrite E2 in H. rewrite !simple_call_type in H.
    repeat split; try lia.
    * destruct (is_blank (nth B (c_str text) "000"%char)); [reflexivity|].
      destruct (is_ordinary (nth B (c_str text) "000"%char));
        rewrite andb_false_r in H; discriminate.
    * destruct (is_blank (nth (B - 1) (c_str text) "000"%char));
        [discriminate|].
      destruct (is_ordinary (nth (B - 1) (c_str text) "000"%char));
        [reflexivity | discriminate].
  + exfalso. apply Nat.ltb_ge in E1.
    destruct (B - n)%nat as [|[|[|k]]] eqn:Ek;
      try (rewrite andb_false_r in H; discriminate H).
    assert (E2 : (B - 1 <? n)%nat = false) by (apply Nat.ltb_ge; lia).
    rewrite E2 in H.
    replace (B - 1 - n)%nat with 0%nat in H by lia. discriminate.
Qed.

(** X16.  In a paragraph made by [make_simple_paragraph] no penalty is a
    feasible breakpoint, neither the one for ['@'] nor the closing one
    (their penalty [-INF] is computed on an unsigned constant and is not
    below [INF]): the feasible breakpoints are exactly the blanks of the
    text that directly follow a character that is neither blank, ['@']
    nor ['~']. *)
Theorem simple_paragraph_breakpoints_are_blanks (text : list ascii) (B : nat) :
  is_feasible_breakpoint (make_simple_paragraph text) B = true
  <-> (1 <= B)%nat /\ (B < length (c_str text))%nat
      /\ is_blank (nth B (c_str text) "000"%char) = true
      /\ is_ordinary (nth (B - 1) (c_str text) "000"%char) = true.
Proof.
  split; [apply simple_paragraph_feasible_is_blank|].
  unfold is_feasible_breakpoint.
  rewrite simple_paragraph_penalty_infeasible.
  rewrite !make_simple_paragraph_type.
  set (n := length (c_str text)).
  intros (H1 & H2 & H3 & H4).
  assert (E0 : (0 <? B)%nat = true) by (apply Nat.ltb_lt; lia).
  assert (E1 : (B <? n)%nat = true) by (apply Nat.ltb_lt; lia).
  assert (E2 : (B - 1 <? n)%nat = true) by (apply Nat.ltb_lt; lia).
  rewrite E0, E1, E2, !simple_call_type, H3, H4.
  assert (E3 : is_blank (nth (B - 1) (c_str text) "000"%char) = false).
  { unfold is_ordinary in H4.
    destruct (is_blank (nth (B - 1) (c_str text) "000"%char));
      [discriminate | reflexivity]. }
  rewrite E3. reflexivity.
Qed.

(** X17.  Every break returned for a paragraph made by
    [make_simple_paragraph] is at a blank of the text: the closing forced
    break and the forced breaks written ['@'] are never chosen. *)
Theorem simple_paragraph_breaks_at_blanks (text : list ascii)
    (line_lengths : list Q) (opts : Options) (breaks : list Break) :
  calc_knuth_plass_breaks (make_simple_paragraph text) line_lengths opts
  = Returned breaks ->
  Forall (fun b => (position b < length (c_str text))%nat
                   /\ is_blank (nth (position b) (c_str text) "000"%char)
                      = true)
         breaks.
Proof.
  intro H. apply returned_breaks_built in H.
  destruct H as (A & HA & ->).
  apply Forall_rev.
  eapply Forall_impl; [|exact (walk_back_links _ line_lengths opts A HA)].
  simpl. intros b (P & dA & _ & _ & Hf & _).
  apply simple_paragraph_feasible_is_blank in Hf. tauto.
Qed.

Lemma simple_paragraph_breaks_at_blanks_witness :
  Forall (fun b => (position b < length (c_str sample_text))%nat
                   /\ is_blank (nth (position b) (c_str sample_text) "000"%char)
                      = true)
         sample_breaks.
Proof.
  apply (simple_paragraph_breaks_at_blanks sample_text [6] default_options).
  vm_compute. reflexivity.
Defined.

(** ** [str_for_simple_paragraph] *)

Lemma build_item_chars (par : KnuthPlassParagraph ascii) (justified : Justify)
    (i : nat) (b : Break) (j : nat) (chars : list ascii) :
  j <> position b ->
  build_item par justified i b j = Some chars ->
  Forall (fun c => c = " "%char \/ In c (value par)) chars.
Proof.
  intros Hj. unfold build_item.
  destruct (nth_error (type par) j) as [[| |]|]; [| | |discriminate].
  - destruct (nth_error (value par) j) as [c|] eqn:E; [|discriminate].
    intro H. injection H as <-. constructor; [|constructor].
    right. eapply nth_error_In; eassumption.
  - destruct (match justified with
              | FULL => match r_width_at par i (ratio b) with
                        | Some w => to_unsigned_long w
                        | None => None
                        end
              | _ => Some 1%Z
              end) as [n|]; [|discriminate].
    intro H. injection H as <-.
    apply Forall_forall. intros c Hc. left.
    eapply repeat_spec; eassumption.
  - destruct (nth_error (flagged par) j) as [f|]; [|discriminate].
    apply Nat.eqb_neq in Hj. rewrite Hj, andb_false_r.
    intro H. injection H as <-. constructor.
Qed.

Lemma build_line_chars (par : KnuthPlassParagraph ascii) (justified : Justify)
    (i : nat) (b : Break) (P : ascii -> Prop) (js : list nat) :
  (forall c, c = " "%char \/ In c (value par) -> P c) ->
  Forall (fun j => j <> position b) js ->
  forall acc line_,
    Forall P acc ->
    build_line par justified i b js acc = Some line_ ->
    Forall P line_.
Proof.
  intros HP.
  induction js as [|j js IH]; intros Hjs acc line_ Hacc; simpl.
  - intro H. now injection H as <-.
  - apply Forall_cons_iff in Hjs. destruct Hjs as (Hj & Hjs).
    destruct (build_item par justified i b j) as [chars|] eqn:E;
      [|discriminate].
    apply IH; [exact Hjs|].
    apply Forall_app. split; [exact Hacc|].
    eapply Forall_impl; [|exact (build_item_chars _ _ _ _ _ _ Hj E)].
    exact HP.
Qed.

Lemma seq_below (j e : nat) (b : Break) :
  e = position b -> Forall (fun x => x <> position b) (seq j (e - j)).
Proof.
  intros ->. apply Forall_forall. intros x Hx. apply in_seq in Hx. lia.
Qed.

Lemma build_lines_chars (par : KnuthPlassParagraph ascii) (justified : Justify)
    (end_mark : option (list ascii)) (newline : list ascii)
    (breaks : list Break) :
  forall i j out out',
    Forall (fun c => c = " "%char \/ In c (value par)
                     \/ In c (mark_text end_mark) \/ In c newline) out ->
    build_lines par justified end_mark newline breaks i j out = Some out' ->
    Forall (fun c => c = " "%char \/ In c (value par)
                     \/ In c (mark_text end_mark) \/ In c newline) out'.
Proof.
  induction breaks as [|b rest IH]; intros i j out out' Hout; simpl.
  - intro H. now injection H as <-.
  - destruct (build_line par justified i b
                (seq j (position b - j)) []) as [line_|] eqn:E;
      [|discriminate].
    apply IH.
    assert (Hl : Forall (fun c => c = " "%char \/ In c (value par)
                     \/ In c (mark_text end_mark) \/ In c newline) line_).
    { eapply (build_line_chars par justified i b); [| |constructor|exact E].
      - intros c [H|H]; tauto.
      - now apply seq_below. }
    repeat (apply Forall_app; split); try assumption.
    + destruct end_mark as [mark|]; [|exact Hl].
      apply Forall_app. split; [exact Hl|].
      apply Forall_forall. intros c Hc. simpl. tauto.
    + apply Forall_forall. intros c Hc. tauto.
Qed.

(** X18.  Whatever the justification, every character of the string
    returned by [str_for_simple_paragraph] is a space, a stored value, a
    character of the end mark or of the newline: the hyphen of a flagged
    penalty is never written, because the test for it compares the item
    counter with the position of the break, which the loop stops short
    of. *)
Theorem str_for_simple_paragraph_characters
    (par : KnuthPlassParagraph ascii) (breaks : list Break)
    (justified : Justify) (end_mark : option (list ascii))
    (newline out : list ascii) :
  str_for_simple_paragraph par breaks justified end_mark newline = Some out ->
  Forall (fun c => c = " "%char \/ In c (value par)
                   \/ In c (mark_text end_mark) \/ In c newline) out.
Proof.
  unfold str_for_simple_paragraph.
  apply build_lines_chars. constructor.
Qed.

Lemma str_for_simple_paragraph_characters_witness :
  Forall (fun c => c = " "%char \/ In c (value hyphen_word)
                   \/ In c (mark_text (Some ["|"%char]))
                   \/ In c ["010"%char])
         ["a"; "|"; "010"; " "; "b"; "|"; "010"]%char.
Proof.
  apply (str_for_simple_paragraph_characters hyphen_word hyphen_breaks FULL
           (Some ["|"%char]) ["010"%char]).
  vm_compute. reflexivity.
Defined.

(** ** A simple paragraph prints its text *)

Lemma skipn_cons_nth (l : list ascii) (d : ascii) :
  forall j, (j < length l)%nat -> skipn j l = nth j l d :: skipn (S j) l.
Proof.
  induction l as [|x l IH]; intros j Hj; simpl in Hj; [lia|].
  destruct j as [|j]; [reflexivity|].
  simpl. apply IH. lia.
Qed.

Lemma make_simple_paragraph_value (text : list ascii) (j : nat) :
  (j < length (c_str text))%nat ->
  nth_error (value (make_simple_paragraph text)) j
  = Some (call_value (simple_call (nth j (c_str text) "000"%char))).
Proof.
  intro Hj. rewrite make_simple_paragraph_calls.
  destruct (run_calls_fields
              (map simple_call (c_str text) ++ simple_paragraph_end)
              empty_paragraph) as (_ & _ & ->).
  simpl value. rewrite app_nil_l, map_app.
  rewrite nth_error_app1 by now rewrite !length_map.
  rewrite map_map.
  rewrite (nth_error_nth' _ (call_value (simple_call "000"%char)))
    by now rewrite length_map.
  f_equal.
  apply (map_nth (fun c => call_value (simple_call c))).
Qed.

(** An item of a text of self-printing characters is written as its
    character. *)
Lemma build_item_prints (text : list ascii) (justified : Justify)
    (i : nat) (b : Break) (j : nat) :
  justified <> FULL ->
  forallb prints_as_itself (c_str text) = true ->
  (j < length (c_str text))%nat ->
  (j < position b)%nat ->
  build_item (make_simple_paragraph text) justified i b j
  = Some [nth j (c_str text) "000"%char].
Proof.
  intros Hfull Hall Hj Hpos. unfold build_item.
  destruct (make_simple_paragraph_parallel text) as (Ht & _).
  rewrite (nth_error_nth' _ BOX) by lia.
  rewrite make_simple_paragraph_type.
  assert (E : (j <? length (c_str text))%nat = true) by now apply Nat.ltb_lt.
  rewrite E, simple_call_type.
  rewrite forallb_forall in Hall.
  specialize (Hall _ (nth_In _ "000"%char Hj)).
  set (ch := nth j (c_str text) "000"%char) in *.
  unfold prints_as_itself in Hall.
  destruct (is_blank ch) eqn:Eb.
  - rewrite !andb_true_iff in Hall. destruct Hall as (_ & Hsp).
    simpl in Hsp. apply Ascii.eqb_eq in Hsp. rewrite Hsp.
    destruct justified; try reflexivity. congruence.
  - unfold is_ordinary. rewrite Eb.
    rewrite !andb_true_iff in Hall. destruct Hall as ((H1 & H2) & _).
    rewrite H1, H2. cbn [negb andb].
    rewrite make_simple_paragraph_value by exact Hj. fold ch.
    unfold simple_call. rewrite Eb.
    apply negb_true_iff in H1. apply negb_true_iff in H2.
    now rewrite H1, H2.
Qed.

Lemma build_line_prints (text : list ascii) (justified : Justify)
    (i : nat) (b : Break) :
  justified <> FULL ->
  forallb prints_as_itself (c_str text) = true ->
  forall k j acc,
    (j + k <= length (c_str text))%nat ->
    (j + k <= position b)%nat ->
    build_line (make_simple_paragraph text) justified i b (seq j k) acc
    = Some (acc ++ firstn k (skipn j (c_str text))).
Proof.
  intros Hfull Hall.
  induction k as [|k IH]; intros j acc Hn Hp; simpl.
  - now rewrite app_nil_r.
  - rewrite (build_item_prints text justified i b j Hfull Hall) by lia.
    rewrite IH by lia.
    rewrite (skipn_cons_nth (c_str text) "000"%char j) by lia.
    simpl. now rewrite <- app_assoc.
Qed.

Lemma build_lines_prints (text : list ascii) (justified : Justify)
    (end_mark : option (list ascii)) (newline : list ascii) :
  justified <> FULL ->
  forallb prints_as_itself (c_str text) = true ->
  forall breaks i j out,
    (j <= length (c_str text))%nat ->
    Forall (fun b => (position b <= length (c_str text))%nat) breaks ->
    build_lines (make_simple_paragraph text) justified end_mark newline
      breaks i j out
    = Some (out ++ cut_text (c_str text) (mark_text end_mark ++ newline)
                      (map position breaks) j).
Proof.
  intros Hfull Hall.
  induction breaks as [|b rest IH]; intros i j out Hj Hb; simpl.
  - now rewrite app_nil_r.
  - apply Forall_cons_iff in Hb. destruct Hb as (Hb & Hrest).
    assert (El : build_line (make_simple_paragraph text) justified i b
                   (seq j (position b - j)) []
                 = Some ([] ++ firstn (position b - j)
                                  (skipn j (c_str text)))).
    { destruct (position b - j)%nat eqn:Ek; [reflexivity|].
      apply build_line_prints; try assumption; lia. }
    rewrite El.
    rewrite IH; [|lia|exact Hrest].
    simpl. f_equal. rewrite <- !app_assoc. f_equal.
    destruct end_mark as [mark|]; simpl; now rewrite <- ?app_assoc.
Qed.

(** X19.  For a text whose characters print as themselves (no ['@'], no
    ['~'], no blank other than the space) and any justification but
    [FULL], [str_for_simple_paragraph] on the paragraph made by
    [make_simple_paragraph] returns the text itself cut at the break
    positions, each line followed by the end mark and the newline; the
    blank at a break opens the next line and the text after the last break
    is not written. *)
Theorem simple_paragraph_prints_its_text (text : list ascii)
    (breaks : list Break) (justified : Justify)
    (end_mark : option (list ascii)) (newline : list ascii) :
  justified <> FULL ->
  forallb prints_as_itself (c_str text) = true ->
  Forall (fun b => (position b <= length (c_str text))%nat) breaks ->
  str_for_simple_paragraph (make_simple_paragraph text) breaks justified
    end_mark newline
  = Some (cut_text (c_str text) (mark_text end_mark ++ newline)
            (map position breaks) 0).
Proof.
  intros Hfull Hall Hb. unfold str_for_simple_paragraph.
  rewrite (build_lines_prints text justified end_mark newline Hfull Hall)
    by (try lia; exact Hb).
  reflexivity.
Qed.

Lemma simple_paragraph_prints_its_text_witness :
  str_for_simple_paragraph (make_simple_paragraph sample_text) sample_breaks
    LEFT (Some ["|"%char]) ["010"%char]
  = Some (cut_text (c_str sample_text)
            (mark_text (Some ["|"%char]) ++ ["010"%char])
            (map position sample_breaks) 0).
Proof.
  apply (simple_paragraph_prints_its_text sample_text sample_breaks LEFT
           (Some ["|"%char]) ["010"%char]).
  - discriminate.
  - reflexivity.
  - repeat constructor.
Defined.

(** ** [insert_spaces] *)

(** [add_space] is never set: the scan copies the characters unchanged. *)
Lemma insert_spaces_scan_copies (isspace : ascii -> bool)
    (chars : list ascii) :
  forall out n added,
    insert_spaces_scan isspace chars out n added false
    = (out ++ chars, n,
       match chars with [] => added | _ :: _ => true end, false).
Proof.
  induction chars as [|ch rest IH]; intros out n added; simpl.
  - now rewrite app_nil_r.
  - rewrite andb_false_r. simpl. rewrite IH, <- app_assoc. simpl.
    destruct rest; reflexivity.
Qed.

Lemma insert_spaces_returns_unchanged (isspace : ascii -> bool) :
  forall fuel str n s,
    (0 <= n < 2 ^ 64)%Z ->
    insert_spaces fuel isspace str n = Some s ->
    s = str /\ ((str <> [] /\ n = 0%Z) \/ (str = [] /\ n = 1%Z)).
Proof.
  induction fuel as [|fuel IH]; intros str n s Hn; simpl; [discriminate|].
  rewrite insert_spaces_scan_copies. simpl.
  change (Z.pow_pos 2 64) with (2 ^ 64)%Z.
  destruct str as [|c str].
  - destruct ((n - 1) mod 2 ^ 64 <=? 0)%Z eqn:E.
    + intro H. injection H as <-. split; [reflexivity|]. right.
      split; [reflexivity|].
      apply Z.leb_le in E.
      destruct (Z.eq_dec n 0) as [->|Hn0];
        [exfalso; vm_compute in E; now apply E|].
      rewrite Z.mod_small in E by lia. lia.
    + intro H. apply Z.leb_gt in E.
      apply IH in H; [|apply Z.mod_pos_bound; lia].
      destruct H as (_ & [(_ & H)|(H & _)]); [lia | discriminate].
  - destruct (n <=? 0)%Z eqn:E.
    + intro H. injection H as <-. apply Z.leb_le in E.
      split; [reflexivity|]. left. split; [discriminate | lia].
    + intro H. apply Z.leb_gt in E.
      apply IH in H; [|exact Hn].
      destruct H as (_ & [(_ & H)|(H & _)]); [lia | discriminate].
Qed.

(** X20.  [insert_spaces] never inserts a space.  For any [isspace], it
    returns exactly when the string is non-empty and [num_spaces] is 0, or
    the string is empty and [num_spaces] is 1, after one iteration and with
    the string unchanged; in every other case the loop never ends. *)
Theorem insert_spaces_never_inserts (isspace : ascii -> bool)
    (str : list ascii) (num_spaces : Z) (s : list ascii) :
  (0 <= num_spaces < 2 ^ 64)%Z ->
  (exists fuel, insert_spaces fuel isspace str num_spaces = Some s)
  <-> s = str
      /\ ((str <> [] /\ num_spaces = 0%Z) \/ (str = [] /\ num_spaces = 1%Z)).
Proof.
  intro Hn. split.
  - intros (fuel & H). eapply insert_spaces_returns_unchanged; eassumption.
  - intros (-> & [(Hne & ->)|(-> & ->)]); exists 1%nat; simpl.
    + rewrite insert_spaces_scan_copies. destruct str; [congruence|].
      reflexivity.
    + reflexivity.
Qed.

Lemma insert_spaces_never_inserts_witness :
  (exists fuel,
      insert_spaces fuel is_blank ["a"; " "; "b"]%char 0 = Some ["a"; " "; "b"]%char)
  <-> ["a"; " "; "b"]%char = ["a"; " "; "b"]%char
      /\ ((["a"; " "; "b"]%char <> [] /\ 0%Z = 0%Z)
          \/ (["a"; " "; "b"]%char = [] /\ 0%Z = 1%Z)).
Proof.
  apply (insert_spaces_never_inserts is_blank ["a"; " "; "b"]%char 0).
  vm_compute. split; [discriminate | reflexivity].
Defined.

(** ** No line length *)

(** X21.  With an empty [line_lengths] and a paragraph that has a feasible
    breakpoint, the call evaluates [back()] of the empty vector at the
    first feasible breakpoint: its behaviour is undefined, whatever the
    options. *)
Theorem empty_line_lengths_with_breakpoint_undefined {V : Type}
    (par : KnuthPlassParagraph V) (opts : Options) (B : nat) :
  (B < length (type par))%nat ->
  is_feasible_breakpoint par B = true ->
  forward_pass par [] opts = None
  /\ calc_knuth_plass_breaks par [] opts = Undefined.
Proof.
  intros HB Hf.
  assert (H : forward_pass par [] opts = None).
  { unfold forward_pass, after_items.
    apply main_loop_empty_lengths_undefined.
    exists B. split; [|exact Hf]. apply in_seq. lia. }
  split; [exact H|].
  unfold calc_knuth_plass_breaks. now rewrite H.
Qed.

Lemma empty_line_lengths_with_breakpoint_undefined_witness :
  forward_pass three_words [] default_options = None
  /\ calc_knuth_plass_breaks three_words [] default_options = Undefined.
Proof.
  apply (empty_line_lengths_with_breakpoint_undefined
           three_words default_options 1).
  - vm_compute. lia.
  - reflexivity.
Defined.

(** ** Demerits are those of the line alone *)

Lemma examine_demerits_value {V : Type} (par : KnuthPlassParagraph V)
    (ll : list Q) (opts : Options) (B : nat) (A : Break) (fresh : nat)
    (dA : bool) (c : Break) :
  examine par ll opts B A fresh = Some (dA, Some c) ->
  demerits c
  = (let d := line_demerits (ratio c) (nth B (penalty par) 0) in
     let d :=
       if nth (position A) (flagged par) false && nth B (flagged par) false
       then d + flagged_demerit opts else d in
     if (1 <? Z.abs (fitness_class c - fitness_class A))%Z
     then d + fitness_demerit opts else d).
Proof.
  unfold examine.
  destruct (compute_adjustment_ratio par (position A) B (line A) ll)
    as [r|]; [|discriminate].
  cbv zeta.
  destruct (Qle_bool (- 1) r && Qle_bool r (tolerance opts));
    [|discriminate].
  intro H. injection H as _ <-. reflexivity.
Qed.

(** X22.  The demerits stored in a returned break are those of its own
    line only: the demerits of the line's ratio and penalty, plus
    [flagged_demerit] when the break and its predecessor are both flagged,
    plus [fitness_demerit] when their fitness classes differ by more than
    1.  The demerits of the predecessor are not added; with non-negative
    [fitness_demerit] and [flagged_demerit] every returned break has
    demerits of at least 1. *)
Theorem returned_demerits_of_line_alone {V : Type}
    (par : KnuthPlassParagraph V) (line_lengths : list Q) (opts : Options)
    (breaks : list Break) :
  calc_knuth_plass_breaks par line_lengths opts = Returned breaks ->
  Forall (fun b => exists P,
              previous b = Some P
              /\ demerits b
                 = (let d := line_demerits (ratio b)
                               (nth (position b) (penalty par) 0) in
                    let d :=
                      if nth (position P) (flagged par) false
                         && nth (position b) (flagged par) false
                      then d + flagged_demerit opts else d in
                    if (1 <? Z.abs (fitness_class b - fitness_class P))%Z
                    then d + fitness_demerit opts else d)
              /\ (0 <= fitness_demerit opts -> 0 <= flagged_demerit opts ->
                  1 <= demerits b))
         breaks.
Proof.
  intro H. apply returned_breaks_built in H.
  destruct H as (A & HA & ->).
  apply Forall_rev.
  eapply Forall_impl; [|exact (walk_back_links par line_lengths opts A HA)].
  simpl. intros b (P & dA & Hp & _ & _ & He).
  exists P. split; [exact Hp|]. split.
  - exact (examine_demerits_value _ _ _ _ _ _ _ _ He).
  - intros Hfit Hflag. exact (examine_demerits _ _ _ _ _ _ _ _ Hfit Hflag He).
Qed.

Lemma returned_demerits_of_line_alone_witness :
  Forall (fun b => exists P,
              previous b = Some P
              /\ demerits b
                 = (let d := line_demerits (ratio b)
                               (nth (position b) (penalty three_words) 0) in
                    let d :=
                      if nth (position P) (flagged three_words) false
                         && nth (position b) (flagged three_words) false
                      then d + flagged_demerit default_options else d in
                    if (1 <? Z.abs (fitness_class b - fitness_class P))%Z
                    then d + fitness_demerit default_options else d)
              /\ (0 <= fitness_demerit default_options ->
                  0 <= flagged_demerit default_options ->
                  1 <= demerits b))
         three_words_breaks.
Proof.
  apply (returned_demerits_of_line_alone three_words [9] default_options).
  vm_compute. reflexivity.
Defined.
